(** * GraphEncoder: the message-passing encoder of [src/domain/graph_encoder.py]

    A shallow embedding of the encoder and of the numpy operations it calls,
    followed by the properties of the propagation and of the node encodings.

    Conventions of the embedding.
    - Scalars are abstract: the code runs on floating-point numbers, the
      embedding on any type with the operations of [np.Numeric]. A property
      that needs an arithmetic law (such as [x + 0 = x]) takes it as a
      hypothesis, and is instantiated on the real numbers.
    - An n-dimensional array is a nested list. An operation that numpy
      refuses (an index out of range, operands of different lengths) is
      [None]. Broadcasting between vectors of different lengths is not
      modelled: such an operation is [None] here. A nested list does not
      record the inner dimensions of an array with an empty outer axis.
    - Node ids are natural numbers (no negative, wrapping index).
    - A [for] loop is [for_each], a left fold in the option monad. *)

From stdpp Require Import base option list.
From Stdlib Require Import Reals Lra.

(** ** The numpy fragment the encoder uses *)

Module np.

Class Numeric (T : Type) : Type := {
  zero : T;
  one : T;
  add : T → T → T;
  sub : T → T → T;
  mul : T → T → T;
  div : T → T → T;
  exp : T → T;
  tanh : T → T;
  maximum : T → T → T
}.

Section Arrays.
Context {T : Type} `{Numeric T}.

(** [np.zeros(n)], [np.zeros((n, m))], [np.zeros((n, m, f))] *)
Definition zeros (n : nat) : list T := replicate n zero.
Definition zeros2 (shape : nat * nat) : list (list T) :=
  replicate shape.1 (zeros shape.2).
Definition zeros3 (shape : nat * nat * nat) : list (list (list T)) :=
  replicate shape.1.1 (zeros2 (shape.1.2, shape.2)).

(** [np.zeros_like(t)] for a three-dimensional [t] *)
Definition zeros_like (t : list (list (list T))) : list (list (list T)) :=
  (λ m : list (list T), (λ v : list T, (λ _ : T, zero) <$> v) <$> m) <$> t.

(** [m.shape] and [t.shape]: the lengths along each axis *)
Definition shape2 {A} (m : list (list A)) : nat * nat :=
  (length m, length (default [] (head m))).
Definition shape3 {A} (t : list (list (list A))) : nat * nat * nat :=
  (length t, length (default [] (head t)),
   length (default [] (head (default [] (head t))))).

(** [a + b], [a * b] on vectors of one length *)
Definition elementwise (f : T → T → T) (a b : list T) : option (list T) :=
  if decide (length a = length b) then Some (zip_with f a b) else None.
Definition vadd : list T → list T → option (list T) := elementwise add.
Definition vmul : list T → list T → option (list T) := elementwise mul.

(** [m.dot(v)] for a matrix [m] and a vector [v] *)
Definition inner (row v : list T) : option T :=
  if decide (length row = length v)
  then Some (foldl add zero (zip_with mul row v)) else None.
Definition dot (m : list (list T)) (v : list T) : option (list T) :=
  mapM (λ row, inner row v) m.

(** [np.sum(rows, axis=0)] for [rows] of shape [(len(rows), width)] *)
Fixpoint accumulate (acc : list T) (rows : list (list T)) : option (list T) :=
  match rows with
  | [] => Some acc
  | row :: rows => acc' ← vadd acc row; accumulate acc' rows
  end.
Definition sum_axis0 (width : nat) (rows : list (list T)) : option (list T) :=
  match rows with
  | [] => Some (zeros width)
  | row :: rows => accumulate row rows
  end.

(** [t[i, j]] *)
Definition item {A} (t : list (list A)) (slice : nat * nat) : option A :=
  row ← t !! slice.1; row !! slice.2.

(** [t[ids, idxs]] with two index arrays of one length: the rows
    [t[ids[0], idxs[0]]], [t[ids[1], idxs[1]]], ... *)
Definition gather {A} (t : list (list A)) (slice : list nat * list nat)
  : option (list A) :=
  if decide (length slice.1 = length slice.2)
  then mapM (item t) (zip slice.1 slice.2) else None.

(** [t[i, j] = v] *)
Definition setitem (t : list (list (list T))) (slice : nat * nat) (v : list T)
  : option (list (list (list T))) :=
  row ← t !! slice.1;
  cell ← row !! slice.2;
  if decide (length v = length cell)
  then Some (<[slice.1 := <[slice.2 := v]> row]> t) else None.

(** [m[i] += v] *)
Definition iadd_row (m : list (list T)) (i : nat) (v : list T)
  : option (list (list T)) :=
  row ← m !! i;
  row' ← vadd row v;
  Some (<[i := row']> m).

End Arrays.
End np.

(** [for x in xs: state = body(state, x)] *)
Fixpoint for_each {A S} (xs : list A) (state : S) (body : S → A → option S)
  : option S :=
  match xs with
  | [] => Some state
  | x :: xs => state' ← body state x; for_each xs state' body
  end.

(** ** Data model *)

Section Model.
Context {T : Type} `{np.Numeric T}.

(** Modelled from the spec: the class [Graph] (section 3, "Graph"), which is
    not among the source files: the number of nodes, the number of node
    features, the dense matrix of node features and, for each node, the
    ordered list of the ids of its neighbors. *)
Record Graph := mkGraph {
  number_of_nodes : nat;
  number_of_node_features : nat;
  node_features : list (list T);
  all_neighbors : list (list nat)
}.

(** Modelled from the spec: the class [Node] (section 3, "Node"), a view keyed
    by a graph and a node id that exposes [features] (row [node_id] of
    [node_features]), [neighbors] and [neighbors_count]. *)
Record Node := mkNode {
  node_id : nat;
  features : list T;
  neighbors : list nat
}.
Definition neighbors_count (node : Node) : nat := length (neighbors node).

(** Modelled from the spec: the constructor [Node(graph, node_id)]. *)
Definition Node_init (graph : Graph) (id : nat) : option Node :=
  row ← node_features graph !! id;
  ns ← all_neighbors graph !! id;
  Some (mkNode id row ns).

(** Modelled from the spec: the class [Edge] (section 3, "Edge"), a view keyed
    by a graph, a start node and an end node. *)
Record Edge := mkEdge {
  start_node : Node;
  end_node : Node
}.

(** Modelled from the spec: [Edge.get_edge_slice] (sections 3 and 4.3), the
    index pair (start node id, end node id) into the first two axes of the
    messages tensor. *)
Definition get_edge_slice (edge : Edge) : nat * nat :=
  (node_id (start_node edge), node_id (end_node edge)).

(** Modelled from the spec: [Edge.get_start_node_neighbors_without_end_node]
    (sections 3 and 4.3): the ids of the neighbors of the start node without
    the end node, in the order of the adjacency, and a parallel index array.
    The encoder iterates over component 0 as node ids and indexes the messages
    tensor with the whole pair, so that component 0 indexes the first axis.
    The parallel array holds the id of the start node: the rows selected are
    the messages coming in to the start node from its other neighbors
    (sections 2 and 3: "the sum of incoming messages from the sender's other
    neighbors"). *)
Definition get_start_node_neighbors_without_end_node (edge : Edge)
  : list nat * list nat :=
  let others :=
    filter (λ k, k ≠ node_id (end_node edge)) (neighbors (start_node edge)) in
  (others, replicate (length others) (node_id (start_node edge))).

(** Modelled from the spec: the class [Message] and its implementation
    [MessageGRU] (section 3, "Message"): a carrier of four vectors, unset at
    creation. *)
Record Message := mkMessage {
  value : option (list T);
  previous_messages : option (list T);
  update_gate : option (list T);
  current_memory : option (list T)
}.
Definition MessageGRU : Message := mkMessage None None None None.

Definition set_value (v : list T) (m : Message) : Message :=
  mkMessage (Some v) (previous_messages m) (update_gate m) (current_memory m).
Definition set_previous_messages (v : list T) (m : Message) : Message :=
  mkMessage (value m) (Some v) (update_gate m) (current_memory m).
Definition set_update_gate (v : list T) (m : Message) : Message :=
  mkMessage (value m) (previous_messages m) (Some v) (current_memory m).
Definition set_current_memory (v : list T) (m : Message) : Message :=
  mkMessage (value m) (previous_messages m) (update_gate m) (Some v).

(** Modelled from the spec: [MessageGRU.compose] (section 4.2):
    [value = (1 - update_gate) * previous_messages + update_gate * current_memory]. *)
Definition compose (m : Message) : option Message :=
  u ← update_gate m;
  p ← previous_messages m;
  c ← current_memory m;
  kept ← np.vmul (np.sub np.one <$> u) p;
  fresh ← np.vmul u c;
  v ← np.vadd kept fresh;
  Some (set_value v m).

(** The fields of [GraphEncoder] (lines 12-25), set by the caller before
    [encode] runs. *)
Record GraphEncoder := mkGraphEncoder {
  time_steps : nat;
  w_gru_update_gate_features : list (list (list (list T)));
  w_gru_forget_gate_features : list (list (list (list T)));
  w_gru_current_memory_message_features : list (list (list (list T)));
  u_gru_update_gate : list (list (list (list T)));
  u_gru_forget_gate : list (list (list (list T)));
  u_gru_current_memory_message : list (list (list (list T)));
  b_gru_update_gate : list T;
  b_gru_forget_gate : list T;
  b_gru_current_memory_message : list T;
  u_graph_node_features : list (list (list T));
  u_graph_neighbor_messages : list (list (list T))
}.

End Model.

Arguments Graph T : clear implicits.
Arguments Node T : clear implicits.
Arguments Edge T : clear implicits.
Arguments Message T : clear implicits.
Arguments GraphEncoder T : clear implicits.

(** ** The encoder *)

Section GraphEncoder.
Context {T : Type} `{np.Numeric T}.
Context (self : GraphEncoder T).

(** Lines 124-146: the static helpers. *)
Definition _relu (vector : list T) : list T :=
  np.maximum np.zero <$> vector.

Definition _sigmoid (vector : list T) : list T :=
  (λ x, np.div (np.exp x) (np.add (np.exp x) np.one)) <$> vector.

Definition _tanh (vector : list T) : list T :=
  np.tanh <$> vector.

Definition _create_node (graph : Graph T) (node_id : nat) : option (Node T) :=
  Node_init graph node_id.

Definition _create_edge (graph : Graph T) (start_node end_node : Node T)
  : Edge T :=
  mkEdge start_node end_node.

Definition _create_message : Message T := MessageGRU.

(** Lines 73-80. *)
Definition _get_messages_from_all_node_neighbors_except_target_summed
    (messages : list (list (list T))) (node : Node T) (edge : Edge T)
  : option (Message T) :=
  let messages_from_the_other_neighbors :=
    set_value (np.zeros (length (features node))) _create_message in
  if decide (1 < neighbors_count node) then
    let neighbors_slice := get_start_node_neighbors_without_end_node edge in
    rows ← np.gather messages neighbors_slice;
    summed ← np.sum_axis0 (np.shape3 messages).2 rows;
    Some (set_value summed messages_from_the_other_neighbors)
  else Some messages_from_the_other_neighbors.

(** Lines 82-92. *)
Definition _pass_through_update_gate
    (messages : list (list (list T))) (node : Node T) (edge : Edge T)
    (graph : Graph T) : option (list T) :=
  message_from_a_neighbor_other_than_target ←
    _get_messages_from_all_node_neighbors_except_target_summed
      messages node edge;
  let edge_slice := get_edge_slice edge in
  w ← np.item (w_gru_update_gate_features self) edge_slice;
  x ← node_features graph !! node_id node;
  wx ← np.dot w x;
  u ← np.item (u_gru_update_gate self) edge_slice;
  previous ← value message_from_a_neighbor_other_than_target;
  um ← np.dot u previous;
  s ← np.vadd wx um;
  s' ← np.vadd s (b_gru_update_gate self);
  Some (_sigmoid s').

(** Lines 115-122. *)
Definition _pass_through_reset_gate
    (messages : list (list (list T))) (node : Node T) (edge : Edge T)
    (graph : Graph T) : option (list T) :=
  let edge_slice := get_edge_slice edge in
  message_from_a_neighbor_other_than_target ← np.item messages edge_slice;
  w ← np.item (w_gru_update_gate_features self) edge_slice;
  x ← node_features graph !! node_id node;
  wx ← np.dot w x;
  u ← np.item (u_gru_update_gate self) edge_slice;
  um ← np.dot u message_from_a_neighbor_other_than_target;
  s ← np.vadd wx um;
  s' ← np.vadd s (b_gru_update_gate self);
  Some (_sigmoid s').

(** Lines 102-113. *)
Definition _keep_or_reset_messages
    (messages : list (list (list T))) (node : Node T) (edge : Edge T)
    (graph : Graph T) : option (list T) :=
  let messages_from_the_other_neighbors_summed :=
    np.zeros (length (features node)) in
  let neighbors_slice := (get_start_node_neighbors_without_end_node edge).1 in
  let edge_slice := get_edge_slice edge in
  summed ← for_each neighbors_slice messages_from_the_other_neighbors_summed
    (λ summed reset_node_index,
       reset_node ← _create_node graph reset_node_index;
       let reset_edge := _create_edge graph node reset_node in
       let reset_edge_slice := get_edge_slice reset_edge in
       reset_gate_output ←
         _pass_through_reset_gate messages node reset_edge graph;
       m ← np.item messages reset_edge_slice;
       weighted ← np.vmul reset_gate_output m;
       np.vadd summed weighted);
  u ← np.item (u_gru_current_memory_message self) edge_slice;
  np.dot u summed.

(** Lines 94-100. *)
Definition _get_current_memory_message
    (messages : list (list (list T))) (node : Node T) (edge : Edge T)
    (graph : Graph T) : option (list T) :=
  messages_passed_through_reset_gate ←
    _keep_or_reset_messages messages node edge graph;
  let edge_slice := get_edge_slice edge in
  w ← np.item (w_gru_current_memory_message_features self) edge_slice;
  x ← node_features graph !! node_id node;
  wx ← np.dot w x;
  u ← np.item (u_gru_current_memory_message self) edge_slice;
  um ← np.dot u messages_passed_through_reset_gate;
  s ← np.vadd wx um;
  current_memory_message ← np.vadd s (b_gru_current_memory_message self);
  Some (_tanh current_memory_message).

(** Lines 64-71. *)
Definition _get_message_inputs
    (messages : list (list (list T))) (node : Node T) (edge : Edge T)
    (graph : Graph T) : option (Message T) :=
  let message := _create_message in
  others ←
    _get_messages_from_all_node_neighbors_except_target_summed
      messages node edge;
  previous ← value others;
  let message := set_previous_messages previous message in
  gate ← _pass_through_update_gate messages node edge graph;
  let message := set_update_gate gate message in
  memory ← _get_current_memory_message messages node edge graph;
  let message := set_current_memory memory message in
  Some message.

(** Lines 51-62. *)
Definition _compose_messages_from_nodes_to_targets
    (graph : Graph T) (messages : list (list (list T)))
  : option (list (list (list T))) :=
  let new_messages := np.zeros_like messages in
  for_each (seq 0 (number_of_nodes graph)) new_messages
    (λ new_messages node_id,
       node ← _create_node graph node_id;
       for_each (neighbors node) new_messages
         (λ new_messages end_node_id,
            end_node ← _create_node graph end_node_id;
            let edge := _create_edge graph node end_node in
            let edge_slice := get_edge_slice edge in
            message ← _get_message_inputs messages node edge graph;
            message ← compose message;
            v ← value message;
            np.setitem new_messages edge_slice v)).

(** Lines 32-38. *)
Definition _send_messages (graph : Graph T) : option (list (list (list T))) :=
  let messages :=
    np.zeros3 (number_of_nodes graph, number_of_nodes graph,
               number_of_node_features graph) in
  for_each (seq 0 (time_steps self)) messages
    (λ messages step, _compose_messages_from_nodes_to_targets graph messages).

(** Lines 46-49. *)
Definition _apply_recurrent_layer_for_node
    (graph : Graph T) (messages : list (list (list T))) (node_id : nat)
  : option (list T) :=
  u ← u_graph_node_features self !! node_id;
  x ← node_features graph !! node_id;
  node_encoding_features ← np.dot u x;
  u' ← u_graph_neighbor_messages self !! node_id;
  sent ← messages !! node_id;
  summed ← np.sum_axis0 (np.shape2 sent).2 sent;
  node_encoding_messages ← np.dot u' summed;
  s ← np.vadd node_encoding_features node_encoding_messages;
  Some (_relu s).

(** Lines 40-44. *)
Definition _encode_nodes
    (graph : Graph T) (messages : list (list (list T)))
  : option (list (list T)) :=
  let encoded_node := np.zeros2 (np.shape2 (node_features graph)) in
  for_each (seq 0 (number_of_nodes graph)) encoded_node
    (λ encoded_node node_id,
       row ← _apply_recurrent_layer_for_node graph messages node_id;
       np.iadd_row encoded_node node_id row).

(** Lines 27-30. *)
Definition encode (graph : Graph T) : option (list (list T)) :=
  messages ← _send_messages graph;
  encodings ← _encode_nodes graph messages;
  Some encodings.

End GraphEncoder.

(** ** Vocabulary of the properties *)

Section Shapes.
Context {T : Type}.

Definition shaped2 (r c : nat) (m : list (list T)) : Prop :=
  length m = r ∧ Forall (λ row, length row = c) m.
Definition shaped3 (a b c : nat) (t : list (list (list T))) : Prop :=
  length t = a ∧ Forall (shaped2 b c) t.
Definition shaped4 (a b c d : nat) (w : list (list (list (list T)))) : Prop :=
  length w = a ∧ Forall (shaped3 b c d) w.

#[global] Instance shaped2_dec r c m : Decision (shaped2 r c m).
Proof. unfold shaped2. apply _. Defined.
#[global] Instance shaped3_dec a b c t : Decision (shaped3 a b c t).
Proof. unfold shaped3. apply _. Defined.
#[global] Instance shaped4_dec a b c d w : Decision (shaped4 a b c d w).
Proof. unfold shaped4. apply _. Defined.

(** The graph is well formed: [node_features] is an N x F matrix, and every
    node has a list of neighbors, all of them nodes of the graph. *)
Definition graph_wf (graph : Graph T) : Prop :=
  shaped2 (number_of_nodes graph) (number_of_node_features graph)
    (node_features graph)
  ∧ length (all_neighbors graph) = number_of_nodes graph
  ∧ Forall (Forall (λ j, j < number_of_nodes graph)) (all_neighbors graph).

(** The weights are shape-compatible with the graph: the six gate tensors
    that are read have shape (N, N, F, F), their two bias vectors length F,
    and the two encoding tensors shape (N, F, F). *)
Definition encoder_wf (self : GraphEncoder T) (graph : Graph T) : Prop :=
  let N := number_of_nodes graph in
  let F := number_of_node_features graph in
  shaped4 N N F F (w_gru_update_gate_features self)
  ∧ shaped4 N N F F (u_gru_update_gate self)
  ∧ shaped4 N N F F (w_gru_current_memory_message_features self)
  ∧ shaped4 N N F F (u_gru_current_memory_message self)
  ∧ length (b_gru_update_gate self) = F
  ∧ length (b_gru_current_memory_message self) = F
  ∧ shaped3 N F F (u_graph_node_features self)
  ∧ shaped3 N F F (u_graph_neighbor_messages self).

#[global] Instance graph_wf_dec graph : Decision (graph_wf graph).
Proof. unfold graph_wf. apply _. Defined.
#[global] Instance encoder_wf_dec self graph : Decision (encoder_wf self graph).
Proof. unfold encoder_wf. apply _. Defined.

End Shapes.

Section Vocabulary.
Context {T : Type} `{np.Numeric T}.
Context (self : GraphEncoder T).

(** [j] is listed among the neighbors of [i]. *)
Definition is_neighbor (graph : Graph T) (i j : nat) : Prop :=
  ∃ ns, all_neighbors graph !! i = Some ns ∧ j ∈ ns.

(** Lines 56-60 and the read of [message.value] on line 61: the vector that
    the iteration of the inner loop for [end_node_id] writes. *)
Definition composed_message (graph : Graph T) (messages : list (list (list T)))
    (node : Node T) (end_node_id : nat) : option (list T) :=
  end_node ← _create_node graph end_node_id;
  let edge := _create_edge graph node end_node in
  message ← _get_message_inputs self messages node edge graph;
  message ← compose message;
  value message.

(** The first two axes of a tensor have length [n]. *)
Definition square (n : nat) (t : list (list (list T))) : Prop :=
  length t = n ∧ Forall (λ m, length m = n) t.

(** The sum of the messages coming in to [node] from its neighbors other
    than [end_node_id], the entries [messages[k, node, :]]; the zero vector
    when [node] has at most one neighbor. *)
Definition sum_of_incoming_messages (messages : list (list (list T)))
    (node : Node T) (end_node_id : nat) : option (list T) :=
  if decide (1 < neighbors_count node) then
    rows ← mapM (λ k, np.item messages (k, node_id node))
           (filter (λ k, k ≠ end_node_id) (neighbors node));
    np.sum_axis0 (np.shape3 messages).2 rows
  else Some (np.zeros (length (features node))).

(** Spec, section 4.2: "previous_messages = sum over all neighbors k of node
    except end_node of messages[node, k, :] (zero vector if node has only one
    neighbor)". *)
Definition sum_of_outgoing_messages (messages : list (list (list T)))
    (node : Node T) (end_node_id : nat) : option (list T) :=
  if decide (1 < neighbors_count node) then
    rows ← mapM (λ k, np.item messages (node_id node, k))
           (filter (λ k, k ≠ end_node_id) (neighbors node));
    np.sum_axis0 (np.shape3 messages).2 rows
  else Some (np.zeros (length (features node))).

(** [w . x + u . m + b], the argument of the sigmoid of a gate and of the tanh
    of the memory *)
Definition affine (w u : list (list T)) (b x m : list T) : option (list T) :=
  wx ← np.dot w x;
  um ← np.dot u m;
  s ← np.vadd wx um;
  np.vadd s b.

(** Spec, section 4.2: "update_gate = sigmoid(W_update . node.features +
    U_update . previous_messages + b_update)", with the matrices read at the
    slice of the edge and [previous] for the previous messages. *)
Definition update_gate_formula (graph : Graph T) (node : Node T)
    (end_node_id : nat) (previous : list T) : option (list T) :=
  w ← np.item (w_gru_update_gate_features self) (node_id node, end_node_id);
  u ← np.item (u_gru_update_gate self) (node_id node, end_node_id);
  x ← node_features graph !! node_id node;
  s ← affine w u (b_gru_update_gate self) x previous;
  Some ((λ z, np.div (np.exp z) (np.add (np.exp z) np.one)) <$> (s : list T)).

(** The reset gate of the neighbor [k] of [node]: the update-gate weights at
    the slice of the edge (node -> k), applied to [messages[node, k, :]]. *)
Definition reset_gate_formula (graph : Graph T)
    (messages : list (list (list T))) (node : Node T) (k : nat)
  : option (list T) :=
  m ← np.item messages (node_id node, k);
  update_gate_formula graph node k m.

(** The sum over the neighbors [k] of [node] other than [end_node_id] of
    [reset_gate_k * messages[node, k, :]], accumulated from the zero vector
    in the order of the adjacency. *)
Definition reset_weighted_sum (graph : Graph T)
    (messages : list (list (list T))) (node : Node T) (end_node_id : nat)
  : option (list T) :=
  for_each (filter (λ k, k ≠ end_node_id) (neighbors node))
    (np.zeros (length (features node)))
    (λ summed k,
       reset_gate ← reset_gate_formula graph messages node k;
       m ← np.item messages (node_id node, k);
       weighted ← np.vmul reset_gate m;
       np.vadd summed weighted).

(** Two encoders read the same parameters for the messages that leave node
    [i] towards the nodes [ks]: the same bias vectors of the update gate and
    of the memory, and the same slices [(i, k)] of the weight and recurrent
    tensors of the update gate and of the memory. *)
Definition same_edge_parameters (a b : GraphEncoder T) (i : nat)
    (ks : list nat) : Prop :=
  b_gru_update_gate a = b_gru_update_gate b
  ∧ b_gru_current_memory_message a = b_gru_current_memory_message b
  ∧ ∀ k, k ∈ ks →
      np.item (w_gru_update_gate_features a) (i, k)
      = np.item (w_gru_update_gate_features b) (i, k)
      ∧ np.item (u_gru_update_gate a) (i, k)
        = np.item (u_gru_update_gate b) (i, k)
      ∧ np.item (w_gru_current_memory_message_features a) (i, k)
        = np.item (w_gru_current_memory_message_features b) (i, k)
      ∧ np.item (u_gru_current_memory_message a) (i, k)
        = np.item (u_gru_current_memory_message b) (i, k).

(** [tanh(W_memory[edge] . node.features + U_memory[edge] . (U_memory[edge] .
    summed) + b_memory)], the current memory of lines 94-100 and 113 as a
    function of the reset-weighted sum [summed]. *)
Definition current_memory_formula (graph : Graph T) (node : Node T)
    (end_node_id : nat) (summed : list T) : option (list T) :=
  u ← np.item (u_gru_current_memory_message self) (node_id node, end_node_id);
  once ← np.dot u summed;
  w ← np.item (w_gru_current_memory_message_features self)
        (node_id node, end_node_id);
  x ← node_features graph !! node_id node;
  s ← affine w u (b_gru_current_memory_message self) x once;
  Some (np.tanh <$> (s : list T)).

End Vocabulary.

(** ** The real numbers as scalars, and sample inputs *)

#[global] Instance Numeric_R : np.Numeric R := {|
  np.zero := 0%R;
  np.one := 1%R;
  np.add := Rplus;
  np.sub := Rminus;
  np.mul := Rmult;
  np.div := Rdiv;
  np.exp := Rtrigo_def.exp;
  np.tanh := Rtrigo_def.tanh;
  np.maximum := Rmax
|}.

Module Sample.

(** A rank-4 tensor of shape (n, n, 1, 1) given by its entries. *)
Definition tensor4 (n : nat) (entry : nat → nat → R)
  : list (list (list (list R))) :=
  (λ i, (λ j, [[entry i j]]) <$> seq 0 n) <$> seq 0 n.

(** An encoder for graphs with [n] nodes and one feature: every weight is [w]
    and every bias is [b]. *)
Definition constant_encoder (steps n : nat) (w b : R) : GraphEncoder R :=
  let t := tensor4 n (λ _ _, w) in
  mkGraphEncoder steps t t t t t t [b] [b] [b]
    (replicate n [[w]]) (replicate n [[w]]).

(** The two-node graph of section 8 of the spec: node 0 and node 1 are each
    the only neighbor of the other. *)
Definition two_nodes : Graph R :=
  mkGraph 2 1 [[1%R]; [1%R]] [[1]; [0]].

(** The path 0 - 1 - 2 and a fourth, isolated node. *)
Definition path_and_isolated : Graph R :=
  mkGraph 4 1 [[1%R]; [2%R]; [3%R]; [4%R]] [[1]; [0; 2]; [1]; []].

Definition node (graph : Graph R) (id : nat) : Node R :=
  default (mkNode id [] []) (Node_init graph id).

(** A messages tensor for four nodes and one feature: the message from node 1
    to node 2 is 1, every other entry is 0. *)
Definition one_message : list (list (list R)) :=
  (λ i, (λ j, [if decide (i = 1 ∧ j = 2) then 1%R else 0%R]) <$> seq 0 4)
    <$> seq 0 4.

(** An encoder for two nodes and one feature whose update-gate weight is 1 on
    the edges that leave node 0 and 2 on the edges that leave node 1; every
    other weight is 1 and every bias 0. *)
Definition per_edge_encoder : GraphEncoder R :=
  let t := tensor4 2 (λ _ _, 1%R) in
  mkGraphEncoder 1 (tensor4 2 (λ i _, if decide (i = 0) then 1%R else 2%R))
    t t t t t [0%R] [0%R] [0%R] (replicate 2 [[1%R]]) (replicate 2 [[1%R]]).

(** An encoder that differs from [constant_encoder 1 2 1 0] in the number of
    time steps, in the three tensors of the forget gate and in the two
    encoding tensors. *)
Definition other_forget_gate : GraphEncoder R :=
  let t := tensor4 2 (λ _ _, 1%R) in
  let t' := tensor4 2 (λ _ _, 9%R) in
  mkGraphEncoder 7 t t' t t t' t [0%R] [5%R] [0%R]
    (replicate 2 [[3%R]]) (replicate 2 [[4%R]]).

End Sample.

(** ** Facts about the numpy fragment *)

Section ArrayFacts.
Context {T : Type} `{np.Numeric T}.

Lemma elementwise_Some (f : T → T → T) (a b c : list T) :
  np.elementwise f a b = Some c ↔ length a = length b ∧ c = zip_with f a b.
Proof.
  unfold np.elementwise. case_decide; split.
  - intros [= <-]. done.
  - intros [_ ->]. done.
  - done.
  - intros [? _]. done.
Qed.

Lemma elementwise_length (f : T → T → T) (a b c : list T) :
  np.elementwise f a b = Some c → length c = length a ∧ length c = length b.
Proof.
  intros [Hlen ->]%elementwise_Some. rewrite length_zip_with. lia.
Qed.

Lemma elementwise_same_length (f : T → T → T) (a b : list T) :
  length a = length b → np.elementwise f a b = Some (zip_with f a b).
Proof. intros. apply elementwise_Some. done. Qed.

Lemma vadd_Some (a b c : list T) :
  np.vadd a b = Some c ↔ length a = length b ∧ c = zip_with np.add a b.
Proof. apply elementwise_Some. Qed.

Lemma vmul_Some (a b c : list T) :
  np.vmul a b = Some c ↔ length a = length b ∧ c = zip_with np.mul a b.
Proof. apply elementwise_Some. Qed.

Lemma inner_Some (row v : list T) (y : T) :
  np.inner row v = Some y
  ↔ length row = length v ∧ y = foldl np.add np.zero (zip_with np.mul row v).
Proof.
  unfold np.inner. case_decide; split.
  - intros [= <-]. done.
  - intros [_ ->]. done.
  - done.
  - intros [? _]. done.
Qed.

Lemma dot_length (m : list (list T)) (v r : list T) :
  np.dot m v = Some r → length r = length m.
Proof.
  unfold np.dot. intros Hm%mapM_Some. symmetry. by eapply Forall2_length.
Qed.

Lemma dot_rows (m : list (list T)) (v r : list T) :
  np.dot m v = Some r → Forall (λ row, length row = length v) m.
Proof.
  unfold np.dot. intros Hm%mapM_Some.
  induction Hm as [|row y m r Hrow _ IH]; constructor; [|done].
  by apply inner_Some in Hrow as [? _].
Qed.

Lemma dot_total (m : list (list T)) (v : list T) :
  Forall (λ row, length row = length v) m → is_Some (np.dot m v).
Proof.
  intros Hm. unfold np.dot. apply mapM_is_Some.
  eapply Forall_impl; [exact Hm|]. intros row Hrow. simpl in Hrow.
  exists (foldl np.add np.zero (zip_with np.mul row v)).
  by apply inner_Some.
Qed.

Lemma length_zeros (n : nat) : length (np.zeros (T:=T) n) = n.
Proof. apply length_replicate. Qed.

Lemma zeros_like_zeros (n : nat) :
  (λ _ : T, np.zero) <$> np.zeros n = np.zeros n.
Proof.
  unfold np.zeros. by rewrite fmap_replicate.
Qed.

Lemma accumulate_length (rows : list (list T)) (acc r : list T) :
  np.accumulate acc rows = Some r → length r = length acc.
Proof.
  revert acc. induction rows as [|row rows IH]; intros acc; simpl.
  - by intros [= <-].
  - intros (acc' & Hadd & Hrest)%bind_Some.
    apply IH in Hrest. apply elementwise_length in Hadd as [? _]. lia.
Qed.

Lemma accumulate_total (rows : list (list T)) (acc : list T) :
  Forall (λ row, length row = length acc) rows →
  is_Some (np.accumulate acc rows).
Proof.
  revert acc. induction rows as [|row rows IH]; intros acc Hrows; simpl.
  - done.
  - apply Forall_cons in Hrows as [Hrow Hrows].
    unfold np.vadd. rewrite elementwise_same_length by done. simpl.
    apply IH. rewrite length_zip_with.
    eapply Forall_impl; [exact Hrows|]. simpl. intros. lia.
Qed.

Lemma sum_axis0_length (width : nat) (rows : list (list T)) (r : list T) :
  Forall (λ row, length row = width) rows →
  np.sum_axis0 width rows = Some r → length r = width.
Proof.
  destruct rows as [|row rows]; simpl.
  - intros _ [= <-]. apply length_zeros.
  - intros [Hrow _]%Forall_cons Hacc. apply accumulate_length in Hacc. lia.
Qed.

Lemma sum_axis0_total (width : nat) (rows : list (list T)) :
  Forall (λ row, length row = width) rows →
  is_Some (np.sum_axis0 width rows).
Proof.
  destruct rows as [|row rows]; simpl; [done|].
  intros [Hrow Hrows]%Forall_cons. apply accumulate_total.
  eapply Forall_impl; [exact Hrows|]. simpl. intros. lia.
Qed.

Lemma item_Some {A} (t : list (list A)) (s : nat * nat) (x : A) :
  np.item t s = Some x ↔ ∃ row, t !! s.1 = Some row ∧ row !! s.2 = Some x.
Proof. unfold np.item. apply bind_Some. Qed.

Lemma setitem_Some (t t' : list (list (list T))) (s : nat * nat) (v : list T) :
  np.setitem t s v = Some t'
  ↔ ∃ row cell, t !! s.1 = Some row ∧ row !! s.2 = Some cell
      ∧ length v = length cell ∧ t' = <[s.1 := <[s.2 := v]> row]> t.
Proof.
  unfold np.setitem. split.
  - intros (row & Hrow & (cell & Hcell & Hif)%bind_Some)%bind_Some.
    case_decide; [|done]. injection Hif as <-. by exists row, cell.
  - intros (row & cell & -> & Hcell & Hlen & ->). simpl. rewrite Hcell. simpl.
    by rewrite decide_True.
Qed.

Lemma setitem_item_eq (t t' : list (list (list T))) (s : nat * nat) (v : list T) :
  np.setitem t s v = Some t' → np.item t' s = Some v.
Proof.
  intros (row & cell & Hrow & Hcell & _ & ->)%setitem_Some.
  apply item_Some. exists (<[s.2 := v]> row). split.
  - apply list_lookup_insert_eq. by eapply lookup_lt_Some.
  - apply list_lookup_insert_eq. by eapply lookup_lt_Some.
Qed.

Lemma setitem_item_ne (t t' : list (list (list T))) (s s' : nat * nat)
    (v : list T) :
  np.setitem t s v = Some t' → s' ≠ s → np.item t' s' = np.item t s'.
Proof.
  intros (row & cell & Hrow & Hcell & _ & ->)%setitem_Some Hne.
  unfold np.item. destruct (decide (s.1 = s'.1)) as [Heq|Hne1].
  - rewrite <- Heq. rewrite list_lookup_insert_eq by by eapply lookup_lt_Some.
    rewrite Hrow. simpl. apply list_lookup_insert_ne.
    intros Heq2. apply Hne. destruct s, s'; simpl in *; congruence.
  - by rewrite list_lookup_insert_ne.
Qed.

End ArrayFacts.

(** ** One round of propagation *)

Section Round.
Context {T : Type} `{np.Numeric T}.
Context (self : GraphEncoder T).


Lemma for_each_ext {A S} (xs : list A) (s : S) (f g : S → A → option S) :
  (∀ s x, f s x = g s x) → for_each xs s f = for_each xs s g.
Proof.
  intros Hfg. revert s. induction xs as [|x xs IH]; intros s; simpl; [done|].
  rewrite Hfg. destruct (g s x); simpl; [apply IH|done].
Qed.

Lemma Node_init_Some (graph : Graph T) (id : nat) (node : Node T) :
  Node_init graph id = Some node
  ↔ ∃ row ns, node_features graph !! id = Some row
      ∧ all_neighbors graph !! id = Some ns ∧ node = mkNode id row ns.
Proof.
  unfold Node_init. split.
  - intros (row & Hrow & (ns & Hns & [= <-])%bind_Some)%bind_Some.
    by exists row, ns.
  - intros (row & ns & -> & -> & ->). done.
Qed.

Lemma Node_init_id (graph : Graph T) (id : nat) (node : Node T) :
  Node_init graph id = Some node → node_id node = id.
Proof. intros (row & ns & _ & _ & ->)%Node_init_Some. done. Qed.

Lemma Node_init_neighbors (graph : Graph T) (id : nat) (node : Node T) :
  Node_init graph id = Some node →
  all_neighbors graph !! id = Some (neighbors node).
Proof. intros (row & ns & _ & ? & ->)%Node_init_Some. done. Qed.

Lemma Node_init_features (graph : Graph T) (id : nat) (node : Node T) :
  Node_init graph id = Some node →
  node_features graph !! id = Some (features node).
Proof. intros (row & ns & ? & _ & ->)%Node_init_Some. done. Qed.

(** The body of the inner loop writes [composed_message] at the slice of the
    edge. *)
Lemma inner_body (graph : Graph T) (messages new_messages : list (list (list T)))
    (node : Node T) (end_node_id : nat) :
  (end_node ← _create_node graph end_node_id;
   let edge := _create_edge graph node end_node in
   let edge_slice := get_edge_slice edge in
   message ← _get_message_inputs self messages node edge graph;
   message ← compose message;
   v ← value message;
   np.setitem new_messages edge_slice v)
  = (v ← composed_message self graph messages node end_node_id;
     np.setitem new_messages (node_id node, end_node_id) v).
Proof.
  unfold composed_message, _create_node.
  destruct (Node_init graph end_node_id) as [end_node|] eqn:Hend; simpl; [|done].
  apply Node_init_id in Hend.
  unfold get_edge_slice, _create_edge. simpl. rewrite Hend.
  destruct (_get_message_inputs _ _ _ _ _) as [message|]; simpl; [|done].
  destruct (compose message) as [message'|]; simpl; done.
Qed.

Lemma inner_loop (graph : Graph T) (messages : list (list (list T)))
    (node : Node T) (ns : list nat) (new new' : list (list (list T))) :
  for_each ns new
    (λ new_messages end_node_id,
       v ← composed_message self graph messages node end_node_id;
       np.setitem new_messages (node_id node, end_node_id) v) = Some new' →
  (∀ s, (∀ j, j ∈ ns → s ≠ (node_id node, j)) → np.item new' s = np.item new s)
  ∧ (∀ j, j ∈ ns →
       ∃ v, composed_message self graph messages node j = Some v
            ∧ np.item new' (node_id node, j) = Some v).
Proof.
  revert new. induction ns as [|j0 ns IH]; intros new; simpl.
  - intros [= <-]. split; [done|]. intros j Hj. by apply elem_of_nil in Hj.
  - intros (new1 & (v & Hv & Hset)%bind_Some & Hrest)%bind_Some.
    destruct (IH _ Hrest) as [Hframe Hwritten]. split.
    + intros s Hs. rewrite Hframe.
      * eapply setitem_item_ne; [exact Hset|]. apply Hs. left.
      * intros j Hj. apply Hs. by right.
    + intros j Hj. destruct (decide (j ∈ ns)) as [Hin|Hnin].
      * by apply Hwritten.
      * apply elem_of_cons in Hj as [->|?]; [|done].
        exists v. split; [done|]. rewrite Hframe.
        -- by eapply setitem_item_eq.
        -- intros j Hj [= ->]. done.
Qed.

Lemma outer_loop (graph : Graph T) (messages : list (list (list T)))
    (ids : list nat) (new new' : list (list (list T))) :
  for_each ids new
    (λ new_messages node_id,
       node ← _create_node graph node_id;
       for_each (neighbors node) new_messages
         (λ new_messages end_node_id,
            end_node ← _create_node graph end_node_id;
            let edge := _create_edge graph node end_node in
            let edge_slice := get_edge_slice edge in
            message ← _get_message_inputs self messages node edge graph;
            message ← compose message;
            v ← value message;
            np.setitem new_messages edge_slice v)) = Some new' →
  (∀ s, (∀ i j, i ∈ ids → is_neighbor graph i j → s ≠ (i, j)) →
        np.item new' s = np.item new s)
  ∧ (∀ i j, i ∈ ids → is_neighbor graph i j →
       ∃ node v, Node_init graph i = Some node
                 ∧ composed_message self graph messages node j = Some v
                 ∧ np.item new' (i, j) = Some v).
Proof.
  revert new. induction ids as [|i0 ids IH]; intros new; simpl.
  - intros [= <-]. split; [done|]. intros i j Hi. by apply elem_of_nil in Hi.
  - intros (new1 & (node & Hnode & Hinner)%bind_Some & Hrest)%bind_Some.
    unfold _create_node in Hnode.
    erewrite for_each_ext in Hinner by (intros; apply inner_body).
    apply inner_loop in Hinner as [Hframe1 Hwritten1].
    pose proof (Node_init_id _ _ _ Hnode) as Hid.
    pose proof (Node_init_neighbors _ _ _ Hnode) as Hns.
    destruct (IH _ Hrest) as [Hframe Hwritten]. split.
    + intros s Hs. rewrite Hframe.
      * apply Hframe1. intros j Hj. rewrite Hid. apply Hs; [left|].
        by exists (neighbors node).
      * intros i j Hi. apply Hs. by right.
    + intros i j Hi Hij. destruct (decide (i ∈ ids)) as [Hin|Hnin].
      * by apply Hwritten.
      * apply elem_of_cons in Hi as [->|?]; [|done].
        destruct Hij as (ns & Hns' & Hj).
        rewrite Hns in Hns'. injection Hns' as <-.
        destruct (Hwritten1 j Hj) as (v & Hv & Hitem).
        exists node, v. split_and!; [done..|].
        rewrite Hframe; [by rewrite <- Hid|].
        intros i j' Hi _ [= ->]. done.
Qed.

(** What one round computes: the new tensor is the zero tensor of the shape of
    the old one, except at the slices [(i, j)] with [j] a neighbor of [i],
    which hold the message composed for the edge from the old tensor. *)
Lemma round_spec (graph : Graph T) (messages new : list (list (list T))) :
  _compose_messages_from_nodes_to_targets self graph messages = Some new →
  (∀ i j, ¬ (i < number_of_nodes graph ∧ is_neighbor graph i j) →
          np.item new (i, j) = np.item (np.zeros_like messages) (i, j))
  ∧ (∀ i j, i < number_of_nodes graph → is_neighbor graph i j →
       ∃ node v, Node_init graph i = Some node
                 ∧ composed_message self graph messages node j = Some v
                 ∧ np.item new (i, j) = Some v).
Proof.
  unfold _compose_messages_from_nodes_to_targets.
  intros [Hframe Hwritten]%outer_loop. split.
  - intros i j Hij. apply Hframe. intros i' j' Hi' Hn [= -> ->].
    apply Hij. split; [|done]. apply elem_of_seq in Hi'. lia.
  - intros i j Hi Hij. apply Hwritten; [|done]. apply elem_of_seq. lia.
Qed.

End Round.

(** ** Shapes and the preconditions of [encode] *)

Section ShapeFacts.
Context {T : Type}.


Lemma shaped2_lookup (r c : nat) (m : list (list T)) (i : nat) :
  shaped2 r c m → i < r → ∃ row, m !! i = Some row ∧ length row = c.
Proof.
  intros [Hlen Hrows] Hi.
  destruct (lookup_lt_is_Some_2 m i) as [row Hrow]; [lia|].
  exists row. split; [done|]. by eapply (Forall_lookup_1 _ _ _ _ Hrows).
Qed.

Lemma shaped3_lookup (a b c : nat) (t : list (list (list T))) (i : nat) :
  shaped3 a b c t → i < a → ∃ m, t !! i = Some m ∧ shaped2 b c m.
Proof.
  intros [Hlen Hrows] Hi.
  destruct (lookup_lt_is_Some_2 t i) as [m Hm]; [lia|].
  exists m. split; [done|]. by eapply (Forall_lookup_1 _ _ _ _ Hrows).
Qed.

Lemma shaped3_item (a b c : nat) (t : list (list (list T))) (i j : nat) :
  shaped3 a b c t → i < a → j < b →
  ∃ cell, np.item t (i, j) = Some cell ∧ length cell = c.
Proof.
  intros Ht Hi Hj.
  destruct (shaped3_lookup _ _ _ _ _ Ht Hi) as (m & Hm & Hshape).
  destruct (shaped2_lookup _ _ _ _ Hshape Hj) as (cell & Hcell & Hlen).
  exists cell. split; [|done]. apply item_Some. by exists m.
Qed.

Lemma shaped4_item (a b c d : nat) (w : list (list (list (list T))))
    (i j : nat) :
  shaped4 a b c d w → i < a → j < b →
  ∃ m, np.item w (i, j) = Some m ∧ shaped2 c d m.
Proof.
  intros [Hlen Hrows] Hi Hj.
  destruct (lookup_lt_is_Some_2 w i) as [t Ht]; [lia|].
  pose proof (Forall_lookup_1 _ _ _ _ Hrows Ht) as Hshape.
  destruct (shaped3_lookup _ _ _ _ _ Hshape Hj) as (m & Hm & Hm').
  exists m. split; [|done]. apply item_Some. by exists t.
Qed.

Lemma shaped3_shape3 (a b c : nat) (t : list (list (list T))) :
  shaped3 a b c t → 0 < a → 0 < b → np.shape3 t = (a, b, c).
Proof.
  intros [Hlen Hrows] Ha Hb. unfold np.shape3.
  destruct t as [|m t]; simpl in *; [lia|].
  apply Forall_cons in Hrows as [[Hm Hcells] _].
  destruct m as [|cell m]; simpl in *; [lia|].
  apply Forall_cons in Hcells as [Hcell _]. by rewrite Hlen, Hm, Hcell.
Qed.

Lemma shaped2_shape2 (r c : nat) (m : list (list T)) :
  shaped2 r c m → 0 < r → np.shape2 m = (r, c).
Proof.
  intros [Hlen Hrows] Hr. unfold np.shape2.
  destruct m as [|row m]; simpl in *; [lia|].
  apply Forall_cons in Hrows as [Hrow _]. by rewrite Hlen, Hrow.
Qed.

Lemma gather_total (a b c : nat) (t : list (list (list T)))
    (ids idxs : list nat) :
  shaped3 a b c t → length ids = length idxs →
  Forall (λ i, i < a) ids → Forall (λ j, j < b) idxs →
  ∃ rows, np.gather t (ids, idxs) = Some rows
          ∧ Forall (λ row, length row = c) rows.
Proof.
  intros Ht Hlen Hids Hidxs. unfold np.gather. simpl.
  rewrite decide_True by done. clear Hlen.
  revert idxs Hidxs. induction Hids as [|i ids Hi _ IH]; intros idxs Hidxs.
  - exists []. done.
  - destruct Hidxs as [|j idxs Hj Hidxs]; [by exists []|].
    destruct (shaped3_item _ _ _ _ _ _ Ht Hi Hj) as (cell & Hcell & Hlen).
    destruct (IH _ Hidxs) as (rows & Hrows & Hlens).
    exists (cell :: rows). split; [|by constructor].
    simpl. rewrite Hcell. simpl. by rewrite Hrows.
Qed.

End ShapeFacts.

(** ** The encoder returns on well-formed inputs *)

#[global] Arguments np.elementwise : simpl never.
#[global] Arguments np.vadd : simpl never.
#[global] Arguments np.vmul : simpl never.
#[global] Arguments np.inner : simpl never.
#[global] Arguments np.dot : simpl never.
#[global] Arguments np.sum_axis0 : simpl never.
#[global] Arguments np.item : simpl never.
#[global] Arguments np.gather : simpl never.
#[global] Arguments np.setitem : simpl never.
#[global] Arguments np.iadd_row : simpl never.
#[global] Arguments np.shape2 : simpl never.
#[global] Arguments np.shape3 : simpl never.
#[global] Arguments np.zeros : simpl never.

(** Rewrites with the outcome of one step of a computation in the option
    monad and moves on to the next step. *)
Ltac step H := rewrite H; simpl.

Section Totality.
Context {T : Type} `{np.Numeric T}.
Context (self : GraphEncoder T) (graph : Graph T).
Hypothesis Hgraph : graph_wf graph.
Hypothesis Hself : encoder_wf self graph.

#[local] Abbreviation N := (number_of_nodes graph).
#[local] Abbreviation F := (number_of_node_features graph).

Lemma for_each_total {A S} (P : S → Prop) (Q : A → Prop) (xs : list A)
    (s : S) (body : S → A → option S) :
  P s → Forall Q xs →
  (∀ s x, P s → Q x → ∃ s', body s x = Some s' ∧ P s') →
  ∃ s', for_each xs s body = Some s' ∧ P s'.
Proof.
  intros Hs Hxs Hbody. revert s Hs.
  induction Hxs as [|x xs Hx _ IH]; intros s Hs; simpl.
  - by exists s.
  - destruct (Hbody s x Hs Hx) as (s1 & Hs1 & HP1). step Hs1. by apply IH.
Qed.

Lemma wf_Node_init (i : nat) :
  i < N →
  ∃ node, Node_init graph i = Some node ∧ node_id node = i
          ∧ length (features node) = F
          ∧ Forall (λ j, j < N) (neighbors node).
Proof.
  destruct Hgraph as (Hfeat & Hlen & Hrange). intros Hi.
  destruct (shaped2_lookup _ _ _ _ Hfeat Hi) as (row & Hrow & Hlenrow).
  destruct (lookup_lt_is_Some_2 (all_neighbors graph) i) as [ns Hns]; [lia|].
  exists (mkNode i row ns). split_and!; simpl; try done.
  - apply Node_init_Some. by exists row, ns.
  - by eapply (Forall_lookup_1 _ _ _ _ Hrange).
Qed.

Lemma wf_node_features (node : Node T) (i : nat) :
  Node_init graph i = Some node →
  node_features graph !! node_id node = Some (features node)
  ∧ length (features node) = F ∧ i < N ∧ node_id node = i
  ∧ Forall (λ j, j < N) (neighbors node).
Proof.
  intros Hnode. pose proof (Node_init_id _ _ _ Hnode) as Hid.
  pose proof (Node_init_features _ _ _ Hnode) as Hfeat.
  assert (i < N) as Hi.
  { destruct Hgraph as ([Hlen _] & _). apply lookup_lt_Some in Hfeat. lia. }
  destruct (wf_Node_init i Hi) as (node' & Hnode' & _ & Hlen & Hns).
  rewrite Hnode in Hnode'. injection Hnode' as <-.
  rewrite Hid. done.
Qed.

Lemma gate_total (w u : list (list (list (list T)))) (b x p : list T)
    (i j : nat) :
  shaped4 N N F F w → shaped4 N N F F u → length b = F →
  length x = F → length p = F → i < N → j < N →
  ∃ w' wx u' um s s',
    np.item w (i, j) = Some w' ∧ np.dot w' x = Some wx
    ∧ np.item u (i, j) = Some u' ∧ np.dot u' p = Some um
    ∧ np.vadd wx um = Some s ∧ np.vadd s b = Some s' ∧ length s' = F.
Proof.
  intros Hw Hu Hb Hx Hp Hi Hj.
  destruct (shaped4_item _ _ _ _ _ _ _ Hw Hi Hj) as (w' & Hw' & Hlw & Hrw).
  destruct (shaped4_item _ _ _ _ _ _ _ Hu Hi Hj) as (u' & Hu' & Hlu & Hru).
  destruct (dot_total w' x) as [wx Hwx].
  { eapply Forall_impl; [exact Hrw|]. simpl. intros. lia. }
  destruct (dot_total u' p) as [um Hum].
  { eapply Forall_impl; [exact Hru|]. simpl. intros. lia. }
  pose proof (dot_length _ _ _ Hwx) as Hlwx.
  pose proof (dot_length _ _ _ Hum) as Hlum.
  exists w', wx, u', um, (zip_with np.add wx um),
    (zip_with np.add (zip_with np.add wx um) b).
  split_and!; try done.
  - apply vadd_Some. split; [lia|done].
  - apply vadd_Some. split; [|done]. rewrite length_zip_with. lia.
  - rewrite !length_zip_with. lia.
Qed.

Section Edge.
Context (messages : list (list (list T))).
Hypothesis Hmessages : shaped3 N N F messages.
Context (i j : nat) (node end_node : Node T).
Hypothesis Hnode : Node_init graph i = Some node.
Hypothesis Hend : Node_init graph j = Some end_node.

Lemma previous_total :
  ∃ message p,
    _get_messages_from_all_node_neighbors_except_target_summed
      messages node (mkEdge node end_node) = Some message
    ∧ value message = Some p ∧ length p = F.
Proof.
  destruct (wf_node_features _ _ Hnode) as (_ & Hlen & Hi & Hid & Hns).
  unfold _get_messages_from_all_node_neighbors_except_target_summed.
  case_decide as Hcount.
  - rewrite (shaped3_shape3 N N F) by (done || lia).
    unfold get_start_node_neighbors_without_end_node. simpl.
    set (others := filter _ _).
    destruct (gather_total N N F messages others
                (replicate (length others) (node_id node)))
      as (rows & Hrows & Hlens); [done| | | |].
    { by rewrite length_replicate. }
    { apply Forall_forall. intros k [_ Hk]%list_elem_of_filter.
      by eapply Forall_forall in Hns. }
    { apply Forall_replicate. lia. }
    destruct (sum_axis0_total F rows Hlens) as [summed Hsummed].
    step Hrows. step Hsummed. eexists _, summed. split_and!; [done..|].
    by eapply sum_axis0_length.
  - eexists _, _. split_and!; [done..|]. rewrite length_zeros. done.
Qed.

Lemma update_gate_total :
  ∃ gate, _pass_through_update_gate self messages node (mkEdge node end_node)
            graph = Some gate ∧ length gate = F.
Proof.
  destruct (wf_node_features _ _ Hnode) as (Hx & Hlen & Hi & Hid & _).
  destruct (wf_node_features _ _ Hend) as (_ & _ & Hj & Hjd & _).
  destruct previous_total as (message & p & Hprev & Hp & Hlp).
  destruct Hself as (Hw & Hu & _ & _ & Hb & _).
  destruct (gate_total _ _ _ _ _ (node_id node) (node_id end_node)
              Hw Hu Hb Hlen Hlp)
    as (w' & wx & u' & um & s & s' & Hw' & Hwx & Hu' & Hum & Hs & Hs' & Hls);
    [lia..|].
  unfold _pass_through_update_gate. step Hprev.
  unfold get_edge_slice. simpl.
  step Hw'. step Hx. step Hwx. step Hu'. step Hp. step Hum.
  step Hs. step Hs'. eexists. split; [done|].
  unfold _sigmoid. by rewrite length_fmap.
Qed.

Lemma reset_gate_total (k : nat) (reset_node : Node T) :
  Node_init graph k = Some reset_node →
  ∃ gate, _pass_through_reset_gate self messages node
            (mkEdge node reset_node) graph = Some gate ∧ length gate = F.
Proof.
  intros Hreset.
  destruct (wf_node_features _ _ Hnode) as (Hx & Hlen & Hi & Hid & _).
  destruct (wf_node_features _ _ Hreset) as (_ & _ & Hk & Hkd & _).
  destruct (shaped3_item N N F messages (node_id node) (node_id reset_node))
    as (m & Hm & Hlm); [done|lia..|].
  destruct Hself as (Hw & Hu & _ & _ & Hb & _).
  destruct (gate_total _ _ _ _ _ (node_id node) (node_id reset_node)
              Hw Hu Hb Hlen Hlm)
    as (w' & wx & u' & um & s & s' & Hw' & Hwx & Hu' & Hum & Hs & Hs' & Hls);
    [lia..|].
  unfold _pass_through_reset_gate, get_edge_slice. simpl.
  step Hm. step Hw'. step Hx. step Hwx. step Hu'. step Hum. step Hs. step Hs'.
  eexists. split; [done|]. unfold _sigmoid. by rewrite length_fmap.
Qed.

Lemma keep_or_reset_total :
  ∃ kept, _keep_or_reset_messages self messages node (mkEdge node end_node)
            graph = Some kept ∧ length kept = F.
Proof.
  destruct (wf_node_features _ _ Hnode) as (Hx & Hlen & Hi & Hid & Hns).
  destruct (wf_node_features _ _ Hend) as (_ & _ & Hj & Hjd & _).
  unfold _keep_or_reset_messages.
  unfold get_start_node_neighbors_without_end_node, get_edge_slice. simpl.
  set (others := filter _ _). set (body := λ summed reset_node_index, _).
  destruct (for_each_total (λ summed : list T, length summed = F)
              (λ k, k < N) others (np.zeros (length (features node))) body)
    as (summed & Hsummed & Hlsummed).
  - rewrite length_zeros. done.
  - apply Forall_forall. intros k [_ Hk]%list_elem_of_filter.
    by eapply Forall_forall in Hns.
  - intros summed k Hlsummed Hk. unfold body, _create_node.
    destruct (wf_Node_init k Hk) as (reset_node & Hreset & Hkd & _).
    destruct (reset_gate_total k reset_node Hreset) as (gate & Hgate & Hlg).
    destruct (shaped3_item N N F messages (node_id node) (node_id reset_node))
      as (m & Hm & Hlm); [done|lia..|].
    step Hreset. unfold _create_edge, get_edge_slice. simpl.
    step Hgate. step Hm.
    unfold np.vmul, np.vadd. rewrite elementwise_same_length by lia. simpl.
    rewrite elementwise_same_length by (rewrite length_zip_with; lia).
    eexists. split; [done|]. rewrite !length_zip_with. lia.
  - step Hsummed.
    destruct Hself as (_ & _ & _ & Hu & _).
    destruct (shaped4_item _ _ _ _ _ (node_id node) (node_id end_node) Hu)
      as (u' & Hu' & Hlu & Hru); [lia..|].
    step Hu'. destruct (dot_total u' summed) as [kept Hkept].
    { eapply Forall_impl; [exact Hru|]. simpl. intros. lia. }
    exists kept. split; [done|]. apply dot_length in Hkept. lia.
Qed.

Lemma current_memory_total :
  ∃ memory, _get_current_memory_message self messages node
              (mkEdge node end_node) graph = Some memory ∧ length memory = F.
Proof.
  destruct (wf_node_features _ _ Hnode) as (Hx & Hlen & Hi & Hid & _).
  destruct (wf_node_features _ _ Hend) as (_ & _ & Hj & Hjd & _).
  destruct keep_or_reset_total as (kept & Hkept & Hlk).
  destruct Hself as (_ & _ & Hw & Hu & _ & Hb & _).
  destruct (gate_total _ _ _ _ _ (node_id node) (node_id end_node)
              Hw Hu Hb Hlen Hlk)
    as (w' & wx & u' & um & s & s' & Hw' & Hwx & Hu' & Hum & Hs & Hs' & Hls);
    [lia..|].
  unfold _get_current_memory_message. step Hkept.
  unfold get_edge_slice. simpl.
  step Hw'. step Hx. step Hwx. step Hu'. step Hum. step Hs. step Hs'.
  eexists. split; [done|]. unfold _tanh. by rewrite length_fmap.
Qed.

Lemma composed_message_total :
  ∃ v, composed_message self graph messages node j = Some v ∧ length v = F.
Proof.
  destruct previous_total as (others & p & Hothers & Hp & Hlp).
  destruct update_gate_total as (gate & Hgate & Hlg).
  destruct current_memory_total as (memory & Hmemory & Hlm).
  unfold composed_message, _create_node. step Hend.
  unfold _create_edge, _get_message_inputs.
  step Hothers. step Hp. step Hgate. step Hmemory.
  unfold compose. simpl.
  unfold np.vmul, np.vadd.
  rewrite (elementwise_same_length np.mul (np.sub np.one <$> gate) p)
    by (rewrite length_fmap; lia). simpl.
  rewrite (elementwise_same_length np.mul gate memory) by lia. simpl.
  rewrite elementwise_same_length
    by (rewrite !length_zip_with, length_fmap; lia). simpl.
  eexists. split; [done|]. rewrite !length_zip_with, length_fmap. lia.
Qed.

End Edge.
Lemma setitem_shaped (a b c : nat) (t : list (list (list T))) (i j : nat)
    (v : list T) :
  shaped3 a b c t → i < a → j < b → length v = c →
  ∃ t', np.setitem t (i, j) v = Some t' ∧ shaped3 a b c t'.
Proof.
  intros Ht Hi Hj Hv.
  destruct (shaped3_lookup _ _ _ _ _ Ht Hi) as (m & Hm & Hshape).
  destruct (shaped2_lookup _ _ _ _ Hshape Hj) as (cell & Hcell & Hlen).
  exists (<[i := <[j := v]> m]> t). split.
  - apply setitem_Some. exists m, cell. split_and!; try done. simpl. lia.
  - destruct Ht as [Hlt Hrows]. split; [by rewrite length_insert|].
    apply Forall_insert; [done|]. destruct Hshape as [Hlm Hcells].
    split; [by rewrite length_insert|]. by apply Forall_insert.
Qed.

Lemma zeros_like_shaped (a b c : nat) (t : list (list (list T))) :
  shaped3 a b c t → shaped3 a b c (np.zeros_like t).
Proof.
  intros [Hlt Hrows]. unfold np.zeros_like. split; [by rewrite length_fmap|].
  apply Forall_fmap. eapply Forall_impl; [exact Hrows|].
  intros m [Hlm Hcells]. simpl. split; [by rewrite length_fmap|].
  apply Forall_fmap. eapply Forall_impl; [exact Hcells|].
  intros cell Hcell. simpl. by rewrite length_fmap.
Qed.

Lemma zeros3_shaped (a b c : nat) : shaped3 a b c (np.zeros3 (T:=T) (a, b, c)).
Proof.
  unfold np.zeros3, np.zeros2. simpl. split; [apply length_replicate|].
  apply Forall_replicate. split; [apply length_replicate|].
  apply Forall_replicate. apply length_zeros.
Qed.

Lemma round_total (messages : list (list (list T))) :
  shaped3 N N F messages →
  ∃ new, _compose_messages_from_nodes_to_targets self graph messages
           = Some new ∧ shaped3 N N F new.
Proof.
  intros Hmessages. unfold _compose_messages_from_nodes_to_targets.
  apply (for_each_total (shaped3 N N F) (λ i, i < N)).
  - by apply zeros_like_shaped.
  - apply Forall_forall. intros i Hi%elem_of_seq. lia.
  - intros new i Hnew Hi.
    destruct (wf_Node_init i Hi) as (node & Hnode & Hid & _ & Hns).
    change (Node_init graph i) with (_create_node graph i) in Hnode.
    cbv beta. step Hnode.
    apply (for_each_total (shaped3 N N F) (λ j, j < N)); [done..|].
    intros new' j Hnew' Hj. cbv beta. rewrite inner_body.
    destruct (wf_Node_init j Hj) as (end_node & Hend & _).
    destruct (composed_message_total messages Hmessages i j node end_node
                Hnode Hend) as (v & Hv & Hlv).
    step Hv. apply setitem_shaped; try done. lia.
Qed.

Lemma send_messages_total :
  ∃ messages, _send_messages self graph = Some messages
              ∧ shaped3 N N F messages.
Proof.
  unfold _send_messages.
  apply (for_each_total (shaped3 N N F) (λ _, True)).
  - apply zeros3_shaped.
  - by apply Forall_forall.
  - intros messages _ Hmessages _. cbv beta. by apply round_total.
Qed.

Lemma apply_recurrent_layer_total (messages : list (list (list T))) (i : nat) :
  shaped3 N N F messages → i < N →
  ∃ row, _apply_recurrent_layer_for_node self graph messages i = Some row
         ∧ length row = F.
Proof.
  intros Hmessages Hi.
  destruct Hgraph as (Hfeat & _). destruct Hself as (_ & _ & _ & _ & _ & _ & Hu & Hu').
  destruct (shaped3_lookup _ _ _ _ _ Hu Hi) as (u & Hlu & Hnu & Hru).
  destruct (shaped3_lookup _ _ _ _ _ Hu' Hi) as (u' & Hlu' & Hnu' & Hru').
  destruct (shaped2_lookup _ _ _ _ Hfeat Hi) as (x & Hx & Hlx).
  destruct (shaped3_lookup _ _ _ _ _ Hmessages Hi) as (sent & Hsent & Hshape).
  destruct (dot_total u x) as [ux Hux].
  { eapply Forall_impl; [exact Hru|]. simpl. intros. lia. }
  pose proof (shaped2_shape2 _ _ _ Hshape) as Hshape2.
  destruct Hshape as [Hls Hcells].
  destruct (sum_axis0_total F sent Hcells) as [summed Hsummed].
  pose proof (sum_axis0_length _ _ _ Hcells Hsummed) as Hlsummed.
  destruct (dot_total u' summed) as [us Hus].
  { eapply Forall_impl; [exact Hru'|]. simpl. intros. lia. }
  pose proof (dot_length _ _ _ Hux) as Hlux.
  pose proof (dot_length _ _ _ Hus) as Hlus.
  unfold _apply_recurrent_layer_for_node.
  assert (length (default [] (head sent)) = F) as Hwidth.
  { specialize (Hshape2 ltac:(lia)). unfold np.shape2 in Hshape2.
    by injection Hshape2. }
  step Hlu. step Hx. step Hux. step Hlu'. step Hsent.
  rewrite Hwidth. step Hsummed. step Hus.
  unfold np.vadd. rewrite elementwise_same_length by lia. simpl.
  eexists. split; [done|]. unfold _relu.
  rewrite length_fmap, length_zip_with. lia.
Qed.

Lemma encode_nodes_total (messages : list (list (list T))) :
  shaped3 N N F messages →
  ∃ encodings, _encode_nodes self graph messages = Some encodings
               ∧ shaped2 N F encodings.
Proof.
  intros Hmessages. unfold _encode_nodes.
  apply (for_each_total (shaped2 N F) (λ i, i < N)).
  - destruct Hgraph as (Hfeat & _).
    destruct (decide (N = 0)) as [Hzero|Hpos].
    + destruct Hfeat as [Hlen _]. unfold np.shape2, np.zeros2. simpl.
      rewrite Hlen, Hzero. simpl. split; [done|]. constructor.
    + rewrite (shaped2_shape2 _ _ _ Hfeat) by lia. unfold np.zeros2. simpl.
      split; [apply length_replicate|]. apply Forall_replicate.
      apply length_zeros.
  - apply Forall_forall. intros i Hi%elem_of_seq. lia.
  - intros encoded i Hencoded Hi.
    destruct (apply_recurrent_layer_total messages i Hmessages Hi)
      as (row & Hrow & Hlrow).
    cbv beta. step Hrow.
    destruct (shaped2_lookup _ _ _ _ Hencoded Hi) as (old & Hold & Hlold).
    unfold np.iadd_row. step Hold.
    unfold np.vadd. rewrite elementwise_same_length by lia. simpl.
    eexists. split; [done|]. destruct Hencoded as [Hlen Hrows].
    split; [by rewrite length_insert|]. apply Forall_insert; [done|].
    rewrite length_zip_with. lia.
Qed.

Lemma encode_total :
  ∃ encodings, encode self graph = Some encodings ∧ shaped2 N F encodings.
Proof.
  destruct send_messages_total as (messages & Hsend & Hmessages).
  destruct (encode_nodes_total messages Hmessages) as (enc & Henc & Hshape).
  unfold encode. step Hsend. step Henc. by exists enc.
Qed.

End Totality.

(** ** Loops: invariants *)

Lemma for_each_inv {A S} (P : S → Prop) (xs : list A) (s s' : S)
    (body : S → A → option S) :
  P s → (∀ s x s1, P s → body s x = Some s1 → P s1) →
  for_each xs s body = Some s' → P s'.
Proof.
  intros Hs Hbody. revert s Hs.
  induction xs as [|x xs IH]; intros s Hs; simpl.
  - by intros [= <-].
  - intros (s1 & Hs1 & Hrest)%bind_Some. eapply IH; [|exact Hrest].
    by eapply Hbody.
Qed.


(** ** The shape of the encodings *)

Section EncodingShape.
Context {T : Type} `{np.Numeric T}.

Lemma iadd_row_shape2 (m m' : list (list T)) (i : nat) (v : list T) :
  np.iadd_row m i v = Some m' → np.shape2 m' = np.shape2 m.
Proof.
  unfold np.iadd_row.
  intros (row & Hrow & (row' & Hadd & [= <-])%bind_Some)%bind_Some.
  apply elementwise_length in Hadd as [Hlen _].
  unfold np.shape2. rewrite length_insert. f_equal.
  destruct m as [|first m]; [done|].
  destruct i as [|i]; simpl in *; [|done]. injection Hrow as ->. done.
Qed.

(** Whatever the inputs, a matrix that [encode] returns has the shape of the
    matrix of node features. *)
Lemma encode_shape2 (self : GraphEncoder T) (graph : Graph T)
    (encodings : list (list T)) :
  encode self graph = Some encodings →
  np.shape2 encodings = np.shape2 (node_features graph).
Proof.
  unfold encode.
  intros (messages & _ & (enc & Henc & [= <-])%bind_Some)%bind_Some.
  unfold _encode_nodes in Henc.
  eapply (for_each_inv (λ e, np.shape2 e = np.shape2 (node_features graph)));
    [| |exact Henc].
  - unfold np.shape2, np.zeros2. simpl. rewrite length_replicate.
    destruct (node_features graph) as [|row rows]; simpl; [done|].
    by rewrite length_zeros.
  - intros e i e' He (row & _ & Hadd)%bind_Some.
    apply iadd_row_shape2 in Hadd. congruence.
Qed.

Lemma shaped2_same_shape2 (r c : nat) (a b : list (list T)) :
  shaped2 r c a → shaped2 r c b → np.shape2 a = np.shape2 b.
Proof.
  intros Ha Hb. destruct (decide (r = 0)) as [->|Hr].
  - destruct Ha as [Hla _], Hb as [Hlb _].
    destruct a, b; simpl in *; done.
  - rewrite (shaped2_shape2 r c a), (shaped2_shape2 r c b); (done || lia).
Qed.

(** C7. For every well-formed graph and every encoder whose weights are
    shape-compatible with it (for any number of time steps), [encode] returns
    a matrix, and the matrix has exactly the shape of [graph.node_features]:
    one row of length F for each of the N nodes. *)
Theorem encode_returns_shape_of_node_features
    (self : GraphEncoder T) (graph : Graph T) :
  graph_wf graph → encoder_wf self graph →
  ∃ encodings,
    encode self graph = Some encodings
    ∧ np.shape2 encodings = np.shape2 (node_features graph)
    ∧ shaped2 (number_of_nodes graph) (number_of_node_features graph)
        encodings.
Proof.
  intros Hgraph Hself.
  destruct (encode_total self graph Hgraph Hself) as (enc & Henc & Hshape).
  exists enc. split_and!; [done| |done]. by apply (encode_shape2 self).
Qed.

(** C9. For a well-formed graph with zero nodes (whatever the weights), or
    with zero node features and shape-compatible weights, [encode] returns,
    and returns the empty matrix of the shape of [node_features]: N rows of
    length F. For any graph, a matrix that [encode] returns has the complete
    shape of [node_features]; the only other outcome is the failure of an
    array operation, and there is no partial result. *)
Theorem encode_degenerate_graph (self : GraphEncoder T) (graph : Graph T) :
  (graph_wf graph →
   number_of_nodes graph = 0
   ∨ (number_of_node_features graph = 0 ∧ encoder_wf self graph) →
   encode self graph
     = Some (np.zeros2 (number_of_nodes graph, number_of_node_features graph))
   ∧ np.zeros2 (number_of_nodes graph, number_of_node_features graph)
     = node_features graph)
  ∧ (∀ encodings,
       encode self graph = Some encodings →
       np.shape2 encodings = np.shape2 (node_features graph)).
Proof.
  split; [|by apply encode_shape2].
  intros Hgraph Hcase. split.
  - destruct Hcase as [Hzero|[Hzero Hself]].
    + assert (∃ messages, _send_messages self graph = Some messages)
        as [messages Hsend].
      { unfold _send_messages.
        destruct (for_each_total (λ _ : list (list (list T)), True)
                    (λ _ : nat, True) (seq 0 (time_steps self))
                    (np.zeros3 (number_of_nodes graph, number_of_nodes graph,
                                number_of_node_features graph))
                    (λ messages _,
                       _compose_messages_from_nodes_to_targets self graph
                         messages)) as (messages & Hsend & _).
        - done.
        - by apply Forall_forall.
        - intros messages _ _ _.
          unfold _compose_messages_from_nodes_to_targets.
          rewrite Hzero. simpl. by eexists.
        - by exists messages. }
      unfold encode. step Hsend. unfold _encode_nodes.
      destruct Hgraph as ([Hlen _] & _). rewrite Hzero in *.
      by destruct (node_features graph).
    + destruct (encode_total self graph Hgraph Hself) as (enc & -> & Hshape).
      f_equal. rewrite Hzero in *. destruct Hshape as [Hlen Hrows].
      unfold np.zeros2. simpl. clear Hgraph Hself Hzero.
      revert Hlen. generalize (number_of_nodes graph). intros n <-.
      induction Hrows as [|row enc Hrow _ IH]; simpl; [done|].
      destruct row; [|done]. by rewrite <- IH.
  - destruct Hgraph as ([Hlen Hrows] & _). unfold np.zeros2. simpl.
    destruct Hcase as [Hzero|[Hzero _]].
    + rewrite Hzero in *. by destruct (node_features graph).
    + rewrite Hzero in *. clear Hzero. revert Hlen.
      generalize (number_of_nodes graph). intros n <-.
      induction Hrows as [|row rows Hrow _ IH]; simpl; [done|].
      destruct row; [|done]. by rewrite IH at 1.
Qed.

End EncodingShape.

(** ** The messages tensor between rounds *)

Section Propagation.
Context {T : Type} `{np.Numeric T}.
Context (self : GraphEncoder T).

Lemma item_zeros_like (t : list (list (list T))) (s : nat * nat) :
  np.item (np.zeros_like t) s
  = (λ v : list T, (λ _ : T, np.zero) <$> v) <$> np.item t s.
Proof.
  unfold np.item, np.zeros_like. rewrite list_lookup_fmap.
  destruct (t !! s.1) as [m|]; simpl; [|done]. by rewrite list_lookup_fmap.
Qed.

Lemma item_zeros3 (a b c : nat) (s : nat * nat) (cell : list T) :
  np.item (np.zeros3 (a, b, c)) s = Some cell → cell = np.zeros c.
Proof.
  unfold np.zeros3, np.zeros2. simpl.
  intros (m & [-> _]%lookup_replicate & [-> _]%lookup_replicate)%item_Some.
  done.
Qed.


Lemma square_item (n : nat) (t : list (list (list T))) (i j : nat) :
  square n t → i < n → j < n → is_Some (np.item t (i, j)).
Proof.
  intros [Hlen Hrows] Hi Hj.
  destruct (lookup_lt_is_Some_2 t i) as [m Hm]; [lia|].
  pose proof (Forall_lookup_1 _ _ _ _ Hrows Hm) as Hlm. simpl in Hlm.
  destruct (lookup_lt_is_Some_2 m j) as [cell Hcell]; [lia|].
  exists cell. apply item_Some. by exists m.
Qed.

Lemma setitem_square (n : nat) (t t' : list (list (list T))) (s : nat * nat)
    (v : list T) :
  np.setitem t s v = Some t' → square n t → square n t'.
Proof.
  intros (m & cell & Hm & Hcell & _ & ->)%setitem_Some [Hlen Hrows].
  split; [by rewrite length_insert|]. apply Forall_insert; [done|].
  rewrite length_insert. by eapply (Forall_lookup_1 _ _ _ _ Hrows).
Qed.

Lemma round_square (n : nat) (graph : Graph T)
    (messages new : list (list (list T))) :
  _compose_messages_from_nodes_to_targets self graph messages = Some new →
  square n messages → square n new.
Proof.
  unfold _compose_messages_from_nodes_to_targets. intros Hloop Hsquare.
  eapply (for_each_inv (square n)); [| |exact Hloop].
  - destruct Hsquare as [Hlen Hrows]. unfold np.zeros_like.
    split; [by rewrite length_fmap|]. apply Forall_fmap.
    eapply Forall_impl; [exact Hrows|]. intros m Hm. simpl.
    by rewrite length_fmap.
  - intros t i t' Ht (node & _ & Hinner)%bind_Some.
    eapply (for_each_inv (square n)); [exact Ht| |exact Hinner].
    intros t1 j t2 Ht1 Hbody. cbv beta in Hbody.
    rewrite inner_body in Hbody.
    apply bind_Some in Hbody as (v & _ & Hset). by eapply setitem_square.
Qed.

(** After any number of rounds, a cell of the messages tensor whose column is
    not a neighbor of its row is the zero vector of length F, and the first
    two axes of the tensor have length N. *)
Lemma send_messages_invariant (graph : Graph T)
    (messages : list (list (list T))) :
  _send_messages self graph = Some messages →
  square (number_of_nodes graph) messages
  ∧ ∀ i j cell, ¬ is_neighbor graph i j →
      np.item messages (i, j) = Some cell →
      cell = np.zeros (number_of_node_features graph).
Proof.
  unfold _send_messages. intros Hloop.
  eapply (for_each_inv
            (λ t, square (number_of_nodes graph) t
                  ∧ ∀ i j cell, ¬ is_neighbor graph i j →
                      np.item t (i, j) = Some cell →
                      cell = np.zeros (number_of_node_features graph)));
    [| |exact Hloop].
  - split.
    + unfold np.zeros3, np.zeros2. simpl. split; [apply length_replicate|].
      apply Forall_replicate. apply length_replicate.
    + intros i j cell _ Hcell. by eapply item_zeros3.
  - intros t step t' [Hsquare Hzero] Hround. split.
    + by eapply round_square.
    + intros i j cell Hij Hcell.
      destruct (round_spec self graph t t' Hround) as [Hframe _].
      rewrite Hframe in Hcell by (intros [_ ?]; done).
      rewrite item_zeros_like in Hcell.
      apply fmap_Some in Hcell as (old & Hold & ->).
      rewrite (Hzero i j old Hij Hold). apply zeros_like_zeros.
Qed.

(** C5. Each round replaces the tensor: an entry [i, j, :] with [j] not a
    neighbor of [i] is zero in the new tensor whatever the old tensor held.
    For every graph and every number of rounds (the initial tensor included),
    the entry [i, j, :] of the messages tensor is the zero vector of length F
    whenever [j] is not a neighbor of [i]. *)
Theorem non_edges_stay_zero (graph : Graph T) :
  (∀ old new i j,
     _compose_messages_from_nodes_to_targets self graph old = Some new →
     ¬ is_neighbor graph i j →
     np.item new (i, j)
     = (λ v : list T, (λ _ : T, np.zero) <$> v) <$> np.item old (i, j))
  ∧ (∀ messages i j,
       _send_messages self graph = Some messages →
       i < number_of_nodes graph → j < number_of_nodes graph →
       ¬ is_neighbor graph i j →
       np.item messages (i, j)
       = Some (np.zeros (number_of_node_features graph))).
Proof.
  split.
  - intros old new i j Hround Hij.
    destruct (round_spec self graph old new Hround) as [Hframe _].
    rewrite Hframe by (intros [_ ?]; done). apply item_zeros_like.
  - intros messages i j [Hsquare Hzero]%send_messages_invariant Hi Hj Hij.
    destruct (square_item _ _ i j Hsquare Hi Hj) as [cell Hcell].
    rewrite Hcell. f_equal. by eapply Hzero.
Qed.

End Propagation.

(** ** The message of one edge *)

Section Messages.
Context {T : Type} `{np.Numeric T}.
Context (self : GraphEncoder T).


Lemma gather_parallel {A} (t : list (list A)) (ids : list nat) (j : nat) :
  np.gather t (ids, replicate (length ids) j)
  = mapM (λ k, np.item t (k, j)) ids.
Proof.
  unfold np.gather. simpl. rewrite decide_True by by rewrite length_replicate.
  induction ids as [|k ids IH]; simpl; [done|]. by rewrite IH.
Qed.

Lemma previous_messages_spec (messages : list (list (list T)))
    (node end_node : Node T) :
  _get_messages_from_all_node_neighbors_except_target_summed
    messages node (mkEdge node end_node)
  = (p ← sum_of_incoming_messages messages node (node_id end_node);
     Some (set_value p _create_message)).
Proof.
  unfold _get_messages_from_all_node_neighbors_except_target_summed,
    sum_of_incoming_messages, get_start_node_neighbors_without_end_node.
  simpl. case_decide; [|done]. rewrite gather_parallel.
  destruct (mapM _ _) as [rows|]; simpl; [|done].
  by destruct (np.sum_axis0 _ rows).
Qed.

Lemma update_gate_spec (graph : Graph T)
    (messages : list (list (list T))) (node end_node : Node T) :
  _pass_through_update_gate self messages node (mkEdge node end_node) graph
  = (previous ← sum_of_incoming_messages messages node (node_id end_node);
     update_gate_formula self graph node (node_id end_node) previous).
Proof.
  unfold _pass_through_update_gate. rewrite previous_messages_spec.
  unfold update_gate_formula, affine, get_edge_slice. simpl.
  destruct (sum_of_incoming_messages _ _ _) as [p|]; simpl; [|done].
  destruct (np.item (w_gru_update_gate_features self) _) as [w|]; simpl;
    [|done].
  destruct (node_features graph !! node_id node) as [x|]; simpl;
    [|by destruct (np.item (u_gru_update_gate self) _)].
  destruct (np.item (u_gru_update_gate self) _) as [u|]; simpl;
    [|by destruct (np.dot w x)].
  destruct (np.dot w x) as [wx|]; simpl; [|done].
  destruct (np.dot u p) as [um|]; simpl; [|done].
  destruct (np.vadd wx um) as [s|]; simpl; [|done].
  by destruct (np.vadd s _).
Qed.

Lemma affine_Some (w u : list (list T)) (b x m s : list T) :
  affine w u b x m = Some s →
  ∃ wx um,
    np.dot w x = Some wx ∧ np.dot u m = Some um
    ∧ length wx = length um ∧ length um = length b
    ∧ s = zip_with np.add (zip_with np.add wx um) b.
Proof.
  unfold affine.
  intros (wx & Hwx & (um & Hum & (s0 & Hs0 & Hs)%bind_Some)%bind_Some
    )%bind_Some.
  apply vadd_Some in Hs0 as [Hlen ->]. apply vadd_Some in Hs as [Hlen' ->].
  rewrite length_zip_with in Hlen'.
  exists wx, um. split_and!; try done. lia.
Qed.

Lemma update_gate_formula_Some (graph : Graph T) (node : Node T) (k : nat)
    (m gate : list T) :
  update_gate_formula self graph node k m = Some gate →
  ∃ w u x wx um,
    np.item (w_gru_update_gate_features self) (node_id node, k) = Some w
    ∧ np.item (u_gru_update_gate self) (node_id node, k) = Some u
    ∧ node_features graph !! node_id node = Some x
    ∧ np.dot w x = Some wx ∧ np.dot u m = Some um
    ∧ length wx = length um ∧ length um = length (b_gru_update_gate self)
    ∧ gate = _sigmoid (zip_with np.add (zip_with np.add wx um)
                         (b_gru_update_gate self)).
Proof.
  unfold update_gate_formula.
  intros (w & Hw & (u & Hu & (x & Hx & (s & Hs & [= <-])%bind_Some)%bind_Some
    )%bind_Some)%bind_Some.
  apply affine_Some in Hs as (wx & um & Hwx & Hum & Hl1 & Hl2 & ->).
  exists w, u, x, wx, um. split_and!; done.
Qed.

(** C2, the update gate. For every directed edge (node -> end_node) and every
    messages tensor, an update gate that is computed is
    [sigmoid(W_update[edge] . node.features + U_update[edge] . previous + b_update)]
    where [previous] is the sum over the neighbors k of node other than
    end_node of the incoming messages [messages[k, node, :]], and the zero
    vector of the length of [node.features], which is F for a node of a
    well-formed graph, when node has at most one neighbor. *)
Theorem update_gate_of_incoming_messages (graph : Graph T)
    (messages : list (list (list T))) (node end_node : Node T)
    (gate : list T) :
  _pass_through_update_gate self messages node (mkEdge node end_node) graph
    = Some gate →
  ∃ w u x previous wx um,
    np.item (w_gru_update_gate_features self)
      (node_id node, node_id end_node) = Some w
    ∧ np.item (u_gru_update_gate self) (node_id node, node_id end_node)
      = Some u
    ∧ node_features graph !! node_id node = Some x
    ∧ sum_of_incoming_messages messages node (node_id end_node)
      = Some previous
    ∧ (neighbors_count node ≤ 1 →
       previous = np.zeros (length (features node)))
    ∧ (graph_wf graph → Node_init graph (node_id node) = Some node →
       length (features node) = number_of_node_features graph)
    ∧ np.dot w x = Some wx ∧ np.dot u previous = Some um
    ∧ length wx = length um ∧ length um = length (b_gru_update_gate self)
    ∧ gate = (λ z, np.div (np.exp z) (np.add (np.exp z) np.one))
               <$> zip_with np.add (zip_with np.add wx um)
                     (b_gru_update_gate self).
Proof.
  rewrite update_gate_spec.
  intros (previous & Hprevious & Hgate)%bind_Some.
  apply update_gate_formula_Some in Hgate
    as (w & u & x & wx & um & Hw & Hu & Hx & Hwx & Hum & Hl1 & Hl2 & ->).
  exists w, u, x, previous, wx, um. split_and!; try done.
  - intros Hcount. unfold sum_of_incoming_messages in Hprevious.
    rewrite decide_False in Hprevious by lia. by injection Hprevious as <-.
  - intros Hgraph Hnode. by eapply wf_node_features.
Qed.


Lemma for_each_impl {A S} (xs : list A) (s s' : S)
    (f g : S → A → option S) :
  (∀ s x s1, x ∈ xs → f s x = Some s1 → g s x = Some s1) →
  for_each xs s f = Some s' → for_each xs s g = Some s'.
Proof.
  revert s. induction xs as [|x xs IH]; intros s Hfg; simpl; [done|].
  intros (s1 & Hs1 & Hrest)%bind_Some.
  rewrite (Hfg s x s1); [simpl|by left|done].
  apply IH; [|done]. intros s2 y s3 Hy. apply Hfg. by right.
Qed.

Lemma reset_gate_spec (graph : Graph T) (messages : list (list (list T)))
    (node reset_node : Node T) :
  _pass_through_reset_gate self messages node (mkEdge node reset_node) graph
  = reset_gate_formula self graph messages node (node_id reset_node).
Proof.
  unfold _pass_through_reset_gate, reset_gate_formula, update_gate_formula,
    affine, get_edge_slice. simpl.
  destruct (np.item messages _) as [m|]; simpl; [|done].
  destruct (np.item (w_gru_update_gate_features self) _) as [w|]; simpl;
    [|done].
  destruct (node_features graph !! node_id node) as [x|]; simpl;
    [|by destruct (np.item (u_gru_update_gate self) _)].
  destruct (np.item (u_gru_update_gate self) _) as [u|]; simpl;
    [|by destruct (np.dot w x)].
  destruct (np.dot w x) as [wx|]; simpl; [|done].
  destruct (np.dot u m) as [um|]; simpl; [|done].
  destruct (np.vadd wx um) as [s|]; simpl; [|done].
  by destruct (np.vadd s _).
Qed.

Lemma keep_or_reset_spec (graph : Graph T) (messages : list (list (list T)))
    (node end_node : Node T) (kept : list T) :
  _keep_or_reset_messages self messages node (mkEdge node end_node) graph
    = Some kept →
  ∃ u summed,
    np.item (u_gru_current_memory_message self)
      (node_id node, node_id end_node) = Some u
    ∧ reset_weighted_sum self graph messages node (node_id end_node) = Some summed
    ∧ np.dot u summed = Some kept.
Proof.
  unfold _keep_or_reset_messages, reset_weighted_sum,
    get_start_node_neighbors_without_end_node, get_edge_slice. simpl.
  intros (summed & Hloop & (u & Hu & Hdot)%bind_Some)%bind_Some.
  exists u, summed. split_and!; [done| |done].
  eapply for_each_impl; [|exact Hloop].
  intros acc k acc' _. unfold _create_node, _create_edge.
  intros (reset_node & Hnode & Hbody)%bind_Some.
  rewrite reset_gate_spec in Hbody. unfold get_edge_slice in Hbody.
  simpl in Hbody. by rewrite (Node_init_id _ _ _ Hnode) in Hbody.
Qed.


Lemma compose_Some (message composed : Message T) :
  compose message = Some composed →
  ∃ gate previous memory,
    update_gate message = Some gate
    ∧ previous_messages message = Some previous
    ∧ current_memory message = Some memory
    ∧ length gate = length previous ∧ length gate = length memory
    ∧ value composed
      = Some (zip_with np.add
                (zip_with np.mul (np.sub np.one <$> gate) previous)
                (zip_with np.mul gate memory)).
Proof.
  unfold compose.
  intros (u & Hu & (p & Hp & (c & Hc & (kept & Hkept & (fresh & Hfresh
    & (v & Hv & [= <-])%bind_Some)%bind_Some)%bind_Some)%bind_Some
    )%bind_Some)%bind_Some.
  apply vmul_Some in Hkept as [Hlk ->]. apply vmul_Some in Hfresh as [Hlf ->].
  apply vadd_Some in Hv as [_ ->]. rewrite length_fmap in Hlk.
  exists u, p, c. split_and!; done.
Qed.

(** C4, the composed message. After a round, for every node [i] of the graph
    and every neighbor [j] of [i], the entry [i, j, :] of the new tensor is
    [(1 - update_gate) * previous_messages + update_gate * current_memory],
    elementwise, for the three fields that [_get_message_inputs] sets on the
    message of the edge from the old tensor. *)
Theorem composed_message_is_gru_interpolation (graph : Graph T)
    (old new : list (list (list T))) (i j : nat) :
  _compose_messages_from_nodes_to_targets self graph old = Some new →
  i < number_of_nodes graph → is_neighbor graph i j →
  ∃ node end_node message previous gate memory,
    Node_init graph i = Some node ∧ Node_init graph j = Some end_node
    ∧ _get_message_inputs self old node (mkEdge node end_node) graph
      = Some message
    ∧ previous_messages message = Some previous
    ∧ update_gate message = Some gate
    ∧ current_memory message = Some memory
    ∧ length gate = length previous ∧ length gate = length memory
    ∧ np.item new (i, j)
      = Some (zip_with np.add
                (zip_with np.mul (np.sub np.one <$> gate) previous)
                (zip_with np.mul gate memory)).
Proof.
  intros Hround Hi Hij.
  destruct (round_spec self graph old new Hround) as [_ Hwritten].
  destruct (Hwritten i j Hi Hij) as (node & v & Hnode & Hv & Hitem).
  unfold composed_message, _create_node, _create_edge in Hv.
  apply bind_Some in Hv as (end_node & Hend & Hv).
  apply bind_Some in Hv as (message & Hmessage & Hv).
  apply bind_Some in Hv as (composed & Hcomposed & Hv).
  apply compose_Some in Hcomposed
    as (gate & previous & memory & Hg & Hp & Hm & Hlp & Hlm & Hvalue).
  rewrite Hvalue in Hv. injection Hv as <-.
  exists node, end_node, message, previous, gate, memory. split_and!; done.
Qed.


Lemma for_each_ext_in {A S} (xs : list A) (s : S) (f g : S → A → option S) :
  (∀ s x, x ∈ xs → f s x = g s x) → for_each xs s f = for_each xs s g.
Proof.
  revert s. induction xs as [|x xs IH]; intros s Hfg; simpl; [done|].
  rewrite Hfg by left. destruct (g s x); simpl; [|done].
  apply IH. intros s' y Hy. apply Hfg. by right.
Qed.

End Messages.

Section SharedParameters.
Context {T : Type} `{np.Numeric T}.

(** C1, which parameters a message reads. For every graph, every messages
    tensor (so at every time step) and every edge (node -> end_node) of the
    graph, the message inputs depend on the encoder only through the bias
    vectors of the update gate and of the memory, which are the same for all
    edges, and through the slices [(node, k)], for the neighbors k of node,
    of the weight and recurrent tensors of the update gate and of the memory:
    two encoders that agree on these compute the same message, whatever
    their other slices, their forget-gate tensors and their other fields. *)
Theorem message_reads_bias_vectors_and_edge_slices
    (a b : GraphEncoder T) (graph : Graph T)
    (messages : list (list (list T))) (node end_node : Node T) :
  same_edge_parameters a b (node_id node) (neighbors node) →
  node_id end_node ∈ neighbors node →
  _get_message_inputs a messages node (mkEdge node end_node) graph
  = _get_message_inputs b messages node (mkEdge node end_node) graph.
Proof.
  intros (Hbu & Hbm & Hslices) Hend.
  assert (∀ k m, k ∈ neighbors node →
            update_gate_formula a graph node k m
            = update_gate_formula b graph node k m) as Hformula.
  { intros k m Hk. destruct (Hslices k Hk) as (Hw & Hu & _).
    unfold update_gate_formula. by rewrite Hw, Hu, Hbu. }
  assert (_pass_through_update_gate a messages node (mkEdge node end_node)
            graph
          = _pass_through_update_gate b messages node (mkEdge node end_node)
              graph) as Hgate.
  { rewrite !update_gate_spec.
    destruct (sum_of_incoming_messages _ _ _); simpl; [|done].
    by apply Hformula. }
  assert (_get_current_memory_message a messages node (mkEdge node end_node)
            graph
          = _get_current_memory_message b messages node
              (mkEdge node end_node) graph) as Hmemory.
  { destruct (Hslices _ Hend) as (_ & _ & Hw & Hu).
    unfold _get_current_memory_message, _keep_or_reset_messages,
      get_edge_slice, get_start_node_neighbors_without_end_node. simpl.
    rewrite Hw, Hu, Hbm. f_equal. f_equal.
    apply for_each_ext_in. intros summed k [_ Hk]%list_elem_of_filter.
    unfold _create_node, _create_edge.
    destruct (Node_init graph k) as [reset_node|] eqn:Hreset; simpl; [|done].
    rewrite !reset_gate_spec. unfold reset_gate_formula.
    rewrite (Node_init_id _ _ _ Hreset).
    destruct (np.item messages _); simpl; [|done]. by rewrite Hformula. }
  unfold _get_message_inputs. by rewrite Hgate, Hmemory.
Qed.

End SharedParameters.



(** ** Arithmetic with zero vectors *)

Section Laws.
Context {T : Type} `{np.Numeric T}.
Hypothesis mul_zero_r : ∀ x : T, np.mul x np.zero = np.zero.
Hypothesis add_zero_r : ∀ x : T, np.add x np.zero = x.
Hypothesis add_zero_l : ∀ x : T, np.add np.zero x = x.

Lemma zip_with_mul_zeros (row : list T) (n : nat) :
  zip_with np.mul row (np.zeros n) = np.zeros (length row `min` n).
Proof.
  unfold np.zeros. revert n. induction row as [|x row IH]; intros n; [done|].
  destruct n as [|n]; simpl; [done|]. by rewrite IH, mul_zero_r.
Qed.

Lemma foldl_add_zeros (n : nat) : foldl np.add np.zero (np.zeros n) = np.zero.
Proof.
  unfold np.zeros. induction n as [|n IH]; simpl; [done|].
  by rewrite add_zero_r.
Qed.

Lemma dot_zeros (u : list (list T)) (n : nat) (r : list T) :
  np.dot u (np.zeros n) = Some r → r = np.zeros (length u).
Proof.
  unfold np.dot. intros Hr%mapM_Some. unfold np.zeros.
  induction Hr as [|row y u r Hy _ IH]; simpl; [done|].
  apply inner_Some in Hy as [_ ->].
  by rewrite zip_with_mul_zeros, foldl_add_zeros, IH.
Qed.

Lemma zip_with_add_zeros_r (a : list T) (n : nat) :
  length a = n → zip_with np.add a (np.zeros n) = a.
Proof.
  unfold np.zeros. intros <-. induction a as [|x a IH]; simpl; [done|].
  by rewrite add_zero_r, IH.
Qed.

Lemma zip_with_add_zeros_l (a : list T) (n : nat) :
  length a = n → zip_with np.add (np.zeros n) a = a.
Proof.
  unfold np.zeros. intros <-. induction a as [|x a IH]; simpl; [done|].
  by rewrite add_zero_l, IH.
Qed.

Lemma accumulate_zeros (n : nat) (rows : list (list T)) :
  Forall (λ row, row = np.zeros n) rows →
  np.accumulate (np.zeros n) rows = Some (np.zeros n).
Proof.
  induction 1 as [|row rows -> _ IH]; simpl; [done|].
  unfold np.vadd. rewrite elementwise_same_length by done. simpl.
  rewrite zip_with_add_zeros_r by apply length_zeros. done.
Qed.

Lemma sum_axis0_zeros (n : nat) (rows : list (list T)) :
  Forall (λ row, row = np.zeros n) rows →
  np.sum_axis0 n rows = Some (np.zeros n).
Proof.
  destruct 1 as [|row rows -> Hrows]; [done|]. by apply accumulate_zeros.
Qed.

End Laws.

(** ** A start node with a single neighbor *)

Section SingleNeighbor.
Context {T : Type} `{np.Numeric T}.
Context (self : GraphEncoder T).

Lemma single_neighbor_others (node end_node : Node T) :
  neighbors node = [node_id end_node] →
  filter (λ k, k ≠ node_id end_node) (neighbors node) = [].
Proof.
  intros ->. rewrite filter_cons_False; [done|]. by intros ?.
Qed.

Lemma single_neighbor_previous (messages : list (list (list T)))
    (node end_node : Node T) :
  neighbors node = [node_id end_node] →
  sum_of_incoming_messages messages node (node_id end_node)
  = Some (np.zeros (length (features node))).
Proof.
  intros Hns. unfold sum_of_incoming_messages, neighbors_count.
  by rewrite Hns.
Qed.

(** With a single neighbor, no function reads the messages tensor. *)
Lemma single_neighbor_inputs (graph : Graph T)
    (messages others : list (list (list T))) (node end_node : Node T) :
  neighbors node = [node_id end_node] →
  _get_message_inputs self messages node (mkEdge node end_node) graph
  = _get_message_inputs self others node (mkEdge node end_node) graph.
Proof.
  intros Hns. unfold _get_message_inputs.
  rewrite !previous_messages_spec, !update_gate_spec.
  rewrite !single_neighbor_previous by done.
  unfold _get_current_memory_message, _keep_or_reset_messages,
    get_start_node_neighbors_without_end_node. simpl.
  by rewrite (single_neighbor_others node end_node Hns).
Qed.

(** C10, a start node with exactly one neighbor. For every directed edge
    (node -> end_node) whose start node has end_node for its only neighbor:
    the previous messages are the zero vector, the reset-weighted sum is
    empty, so that the memory input
    [U_memory[edge] . (U_memory[edge] . 0)] is the zero vector, the update
    gate is [sigmoid(W_update[edge] . node.features + b_update)], the current
    memory is [tanh(W_memory[edge] . node.features + b_memory)], and the same
    message inputs are computed from any other messages tensor, so at every
    round. *)
Theorem single_neighbor_message_is_constant (graph : Graph T)
    (messages : list (list (list T))) (node end_node : Node T)
    (message : Message T) :
  (∀ x : T, np.mul x np.zero = np.zero) →
  (∀ x : T, np.add x np.zero = x) →
  neighbors node = [node_id end_node] →
  _get_message_inputs self messages node (mkEdge node end_node) graph
    = Some message →
  ∃ w wm um x wx wmx,
    np.item (w_gru_update_gate_features self)
      (node_id node, node_id end_node) = Some w
    ∧ np.item (w_gru_current_memory_message_features self)
        (node_id node, node_id end_node) = Some wm
    ∧ np.item (u_gru_current_memory_message self)
        (node_id node, node_id end_node) = Some um
    ∧ node_features graph !! node_id node = Some x
    ∧ np.dot w x = Some wx ∧ np.dot wm x = Some wmx
    ∧ previous_messages message = Some (np.zeros (length (features node)))
    ∧ reset_weighted_sum self graph messages node (node_id end_node)
      = Some (np.zeros (length (features node)))
    ∧ np.dot um (np.zeros (length (features node)))
      = Some (np.zeros (length um))
    ∧ np.dot um (np.zeros (length um)) = Some (np.zeros (length um))
    ∧ update_gate message
      = Some ((λ z, np.div (np.exp z) (np.add (np.exp z) np.one))
                <$> zip_with np.add wx (b_gru_update_gate self))
    ∧ current_memory message
      = Some (np.tanh <$> zip_with np.add wmx
                            (b_gru_current_memory_message self))
    ∧ ∀ others,
        _get_message_inputs self others node (mkEdge node end_node) graph
        = Some message.
Proof.
  intros mul_zero_r add_zero_r Hns Hinputs.
  pose proof Hinputs as Hcopy. unfold _get_message_inputs in Hcopy.
  rewrite previous_messages_spec, update_gate_spec in Hcopy.
  rewrite single_neighbor_previous in Hcopy by done. simpl in Hcopy.
  apply bind_Some in Hcopy as (gate & Hgate & Hcopy).
  apply bind_Some in Hcopy as (memory & Hmemory & [= Hmessage]).
  apply update_gate_formula_Some in Hgate
    as (w & u & x & wx & uz & Hw & Hu & Hx & Hwx & Huz & Hl1 & Hl2 & Hgate).
  pose proof (dot_zeros mul_zero_r add_zero_r _ _ _ Huz) as ->.
  rewrite (zip_with_add_zeros_r add_zero_r) in Hgate
    by (by rewrite length_zeros in Hl1).
  unfold _get_current_memory_message, get_edge_slice in Hmemory.
  simpl in Hmemory.
  apply bind_Some in Hmemory as (kept & Hkept & Hmemory).
  apply keep_or_reset_spec in Hkept as (um & summed & Hum & Hsummed & Hdot).
  pose proof (single_neighbor_others node end_node Hns) as Hothers.
  pose proof Hsummed as Hempty. unfold reset_weighted_sum in Hempty.
  rewrite Hothers in Hempty. injection Hempty as <-.
  pose proof (dot_zeros mul_zero_r add_zero_r _ _ _ Hdot) as ->.
  apply bind_Some in Hmemory as (wm & Hwm & Hmemory).
  apply bind_Some in Hmemory as (x' & Hx' & Hmemory).
  rewrite Hx in Hx'. injection Hx' as <-.
  apply bind_Some in Hmemory as (wmx & Hwmx & Hmemory).
  rewrite Hum in Hmemory. simpl in Hmemory.
  apply bind_Some in Hmemory as (twice & Htwice & Hmemory).
  pose proof (dot_zeros mul_zero_r add_zero_r _ _ _ Htwice) as ->.
  apply bind_Some in Hmemory as (s & Hs & Hmemory).
  apply bind_Some in Hmemory as (s' & Hs' & [= Hmemory]).
  apply vadd_Some in Hs as [Hls ->]. apply vadd_Some in Hs' as [_ ->].
  rewrite (zip_with_add_zeros_r add_zero_r) in Hmemory
    by (by rewrite length_zeros in Hls).
  exists w, wm, um, x, wx, wmx. split_and!; try done.
  - by rewrite <- Hmessage.
  - rewrite <- Hmessage. simpl. by rewrite Hgate.
  - rewrite <- Hmessage. simpl. by rewrite <- Hmemory.
  - intros others. rewrite <- Hinputs. by apply single_neighbor_inputs.
Qed.

End SingleNeighbor.

(** ** The encoding of a node *)

Section Encoding.
Context {T : Type} `{np.Numeric T}.
Context (self : GraphEncoder T).

Lemma iadd_row_lookup (m m' : list (list T)) (i : nat) (v : list T) :
  np.iadd_row m i v = Some m' →
  (∀ k, k ≠ i → m' !! k = m !! k)
  ∧ ∃ old, m !! i = Some old ∧ length old = length v
           ∧ m' !! i = Some (zip_with np.add old v).
Proof.
  unfold np.iadd_row.
  intros (old & Hold & (row' & Hadd & [= <-])%bind_Some)%bind_Some.
  apply vadd_Some in Hadd as [Hlen ->]. split.
  - intros k Hk. by apply list_lookup_insert_ne.
  - exists old. split_and!; [done..|].
    apply list_lookup_insert_eq. by eapply lookup_lt_Some.
Qed.

Lemma encode_nodes_loop (graph : Graph T) (messages : list (list (list T)))
    (ids : list nat) (start encodings : list (list T)) :
  for_each ids start
    (λ encoded_node node_id,
       row ← _apply_recurrent_layer_for_node self graph messages node_id;
       np.iadd_row encoded_node node_id row) = Some encodings →
  (∀ i, i ∉ ids → encodings !! i = start !! i)
  ∧ (NoDup ids → ∀ i, i ∈ ids →
       ∃ row old,
         _apply_recurrent_layer_for_node self graph messages i = Some row
         ∧ start !! i = Some old ∧ length old = length row
         ∧ encodings !! i = Some (zip_with np.add old row)).
Proof.
  revert start. induction ids as [|i0 ids IH]; intros start; simpl.
  - intros [= <-]. split; [done|]. intros _ i Hi. by apply elem_of_nil in Hi.
  - intros (e1 & (row & Hrow & Hadd)%bind_Some & Hrest)%bind_Some.
    destruct (IH _ Hrest) as [Hframe Hrows].
    destruct (iadd_row_lookup _ _ _ _ Hadd)
      as [Hother (old & Hold & Hlen & Hnew)]. split.
    + intros i Hi. apply not_elem_of_cons in Hi as [Hne Hnin].
      rewrite Hframe by done. by apply Hother.
    + intros [Hnin Hnodup]%NoDup_cons i [->|Hi]%elem_of_cons.
      * exists row, old. split_and!; [done..|]. by rewrite Hframe.
      * destruct (Hrows Hnodup i Hi) as (row' & old' & ? & Hold' & ? & ?).
        exists row', old'. split_and!; [done| |done..].
        rewrite <- Hold'. symmetry. apply Hother. by intros ->.
Qed.

(** The row of node [i] in the encodings is the zero row plus the output of
    the recurrent layer for [i]. *)
Lemma encoding_row (graph : Graph T) (encodings : list (list T)) (i : nat) :
  encode self graph = Some encodings → i < number_of_nodes graph →
  ∃ messages row,
    _send_messages self graph = Some messages
    ∧ _apply_recurrent_layer_for_node self graph messages i = Some row
    ∧ encodings !! i = Some (zip_with np.add (np.zeros (length row)) row).
Proof.
  unfold encode.
  intros (messages & Hsend & (enc & Henc & [= <-])%bind_Some)%bind_Some Hi.
  unfold _encode_nodes in Henc.
  apply encode_nodes_loop in Henc as [_ Hrows].
  destruct (Hrows (NoDup_seq _ _) i) as (row & old & Hrow & Hold & Hlen & Hnew).
  { apply elem_of_seq. lia. }
  unfold np.zeros2 in Hold. apply lookup_replicate in Hold as [-> _].
  rewrite length_zeros in Hlen. exists messages, row.
  split_and!; [done..|]. rewrite Hnew. by rewrite <- Hlen.
Qed.

Lemma apply_recurrent_layer_Some (graph : Graph T)
    (messages : list (list (list T))) (i : nat) (row : list T) :
  _apply_recurrent_layer_for_node self graph messages i = Some row →
  ∃ u x ux u' sent summed us,
    u_graph_node_features self !! i = Some u
    ∧ node_features graph !! i = Some x
    ∧ np.dot u x = Some ux
    ∧ u_graph_neighbor_messages self !! i = Some u'
    ∧ messages !! i = Some sent
    ∧ np.sum_axis0 (np.shape2 sent).2 sent = Some summed
    ∧ np.dot u' summed = Some us
    ∧ length ux = length us
    ∧ row = _relu (zip_with np.add ux us).
Proof.
  unfold _apply_recurrent_layer_for_node.
  intros (u & Hu & (x & Hx & (ux & Hux & (u' & Hu' & (sent & Hsent
    & (summed & Hsummed & (us & Hus & (s & Hs & [= <-])%bind_Some)%bind_Some
    )%bind_Some)%bind_Some)%bind_Some)%bind_Some)%bind_Some)%bind_Some.
  apply vadd_Some in Hs as [Hlen ->].
  exists u, x, ux, u', sent, summed, us. split_and!; done.
Qed.

(** C6, the encoding of a node. For every node [i] of the graph, the row [i]
    of the encodings is
    [ReLU(U_node_features[i] . node.features + U_neighbor_messages[i] . summed)]
    where [summed] is the sum over j of [messages[i, j, :]], the messages sent
    from [i] (the first index of the final tensor is fixed to [i]). *)
Theorem encoding_sums_outgoing_messages (graph : Graph T)
    (encodings : list (list T)) (i : nat) :
  (∀ x : T, np.add np.zero x = x) →
  encode self graph = Some encodings → i < number_of_nodes graph →
  ∃ messages u x ux u' sent summed us,
    _send_messages self graph = Some messages
    ∧ u_graph_node_features self !! i = Some u
    ∧ node_features graph !! i = Some x
    ∧ np.dot u x = Some ux
    ∧ u_graph_neighbor_messages self !! i = Some u'
    ∧ messages !! i = Some sent
    ∧ (∀ j, sent !! j = np.item messages (i, j))
    ∧ np.sum_axis0 (np.shape2 sent).2 sent = Some summed
    ∧ np.dot u' summed = Some us
    ∧ length ux = length us
    ∧ encodings !! i = Some (np.maximum np.zero <$> zip_with np.add ux us).
Proof.
  intros add_zero_l Henc Hi.
  destruct (encoding_row graph encodings i Henc Hi)
    as (messages & row & Hsend & Hrow & Hnew).
  rewrite (zip_with_add_zeros_l add_zero_l) in Hnew by done.
  apply apply_recurrent_layer_Some in Hrow
    as (u & x & ux & u' & sent & summed & us & Hu & Hx & Hux & Hu' & Hsent
        & Hsummed & Hus & Hlen & ->).
  exists messages, u, x, ux, u', sent, summed, us. split_and!; try done.
  intros j. unfold np.item. simpl. by rewrite Hsent.
Qed.

(** C8, a node without neighbors. For every graph, every number of time
    steps and every node [i] with an empty list of neighbors, the row of [i]
    in the final messages tensor is all zero and the row [i] of the encodings
    is [ReLU(U_node_features[i] . node.features)]. *)
Theorem isolated_node_encoding (graph : Graph T)
    (encodings : list (list T)) (i : nat) :
  (∀ x : T, np.mul x np.zero = np.zero) →
  (∀ x : T, np.add x np.zero = x) →
  (∀ x : T, np.add np.zero x = x) →
  encode self graph = Some encodings → i < number_of_nodes graph →
  all_neighbors graph !! i = Some [] →
  ∃ messages sent u x ux,
    _send_messages self graph = Some messages
    ∧ messages !! i = Some sent
    ∧ Forall (λ cell, cell = np.zeros (number_of_node_features graph)) sent
    ∧ u_graph_node_features self !! i = Some u
    ∧ node_features graph !! i = Some x
    ∧ np.dot u x = Some ux
    ∧ encodings !! i = Some (np.maximum np.zero <$> ux).
Proof.
  intros mul_zero_r add_zero_r add_zero_l Henc Hi Hns.
  destruct (encoding_row graph encodings i Henc Hi)
    as (messages & row & Hsend & Hrow & Hnew).
  rewrite (zip_with_add_zeros_l add_zero_l) in Hnew by done.
  apply apply_recurrent_layer_Some in Hrow
    as (u & x & ux & u' & sent & summed & us & Hu & Hx & Hux & Hu' & Hsent
        & Hsummed & Hus & Hlen & ->).
  destruct (send_messages_invariant self graph messages Hsend) as [_ Hzero].
  assert (Forall (λ cell, cell = np.zeros (number_of_node_features graph))
            sent) as Hcells.
  { apply Forall_lookup. intros j cell Hcell. apply (Hzero i j).
    - intros (ns & Hns' & Hj). rewrite Hns in Hns'. injection Hns' as <-.
      by apply elem_of_nil in Hj.
    - apply item_Some. by exists sent. }
  assert (summed = np.zeros (np.shape2 sent).2
          ∨ summed = np.zeros (number_of_node_features graph)) as Hzeros.
  { unfold np.sum_axis0 in Hsummed.
    destruct sent as [|cell sent]; [left; by injection Hsummed as <-|right].
    apply Forall_cons in Hcells as [-> Hcells].
    rewrite (accumulate_zeros add_zero_r) in Hsummed by done.
    by injection Hsummed as <-. }
  assert (us = np.zeros (length u')) as ->.
  { destruct Hzeros as [-> | ->];
      by eapply (dot_zeros mul_zero_r add_zero_r). }
  rewrite (zip_with_add_zeros_r add_zero_r) in Hnew
    by (by rewrite length_zeros in Hlen).
  exists messages, sent, u, x, ux. split_and!; done.
Qed.

End Encoding.

(** ** Instances on sample inputs *)

(** Decides a well-formedness condition on a concrete input. *)
Ltac decide_wf := apply (bool_decide_unpack _); vm_compute; exact I.

Lemma encode_returns_shape_of_node_features_witness :
  ∃ encodings,
    encode (Sample.constant_encoder 1 2 1 0) Sample.two_nodes = Some encodings
    ∧ np.shape2 encodings = np.shape2 (node_features Sample.two_nodes)
    ∧ shaped2 2 1 encodings.
Proof.
  apply (encode_returns_shape_of_node_features
           (Sample.constant_encoder 1 2 1 0) Sample.two_nodes).
  - decide_wf.
  - decide_wf.
Defined.

(** A graph with two nodes and no feature, and a graph with no node. *)
Lemma encode_degenerate_graph_witness :
  encode (mkGraphEncoder 3 [[[]; []]; [[]; []]] [] [[[]; []]; [[]; []]]
            [[[]; []]; [[]; []]] [] [[[]; []]; [[]; []]] [] [] []
            [[]; []] [[]; []])
    (mkGraph 2 0 [[]; []] [[1]; [0]]) = Some [[]; []]
  ∧ encode (Sample.constant_encoder 3 2 1 0) (mkGraph 0 1 [] []) = Some [].
Proof.
  split.
  - refine (proj1 (proj1 (encode_degenerate_graph _ _) _ _)).
    + decide_wf.
    + right. split; [reflexivity|decide_wf].
  - refine (proj1 (proj1 (encode_degenerate_graph _ _) _ _)).
    + decide_wf.
    + left. reflexivity.
Defined.

(** With no feature and weights for one feature, the first product of a
    weight matrix and a feature vector fails. *)
Example encode_zero_features_incompatible_weights :
  encode (Sample.constant_encoder 3 2 1 0) (mkGraph 2 0 [[]; []] [[1]; [0]])
    = None.
Proof. vm_compute. reflexivity. Qed.

(** Spec, section 8, "time_steps = 0": the messages tensor stays zero and the
    encoding of a node is the term of its features alone. *)
Example no_propagation :
  _send_messages (Sample.constant_encoder 0 2 1 0) Sample.two_nodes
    = Some [[[0%R]; [0%R]]; [[0%R]; [0%R]]]
  ∧ encode (Sample.constant_encoder 0 2 1 0) Sample.two_nodes
    = Some [[(0 + Rmax 0 (0 + 1 * 1 + (0 + 1 * (0 + 0))))%R];
            [(0 + Rmax 0 (0 + 1 * 1 + (0 + 1 * (0 + 0))))%R]].
Proof. split; reflexivity. Qed.

(** Spec, section 8, "single-edge two-node graph": one round with every
    weight 1 and every bias 0. The message from node 0 to node 1 is
    [(1 - z) * 0 + z * tanh(1 * 1 + 1 * (1 * 0) + 0)] with
    [z = sigmoid(1 * 1 + 1 * 0 + 0)], sums written as the code folds them. *)
Example two_nodes_one_round :
  let z := (exp (0 + 1 * 1 + (0 + 1 * 0) + 0)
            / (exp (0 + 1 * 1 + (0 + 1 * 0) + 0) + 1))%R in
  let m := ((1 - z) * 0
            + z * Rtrigo_def.tanh (0 + 1 * 1 + (0 + 1 * (0 + 1 * 0)) + 0))%R in
  _send_messages (Sample.constant_encoder 1 2 1 0) Sample.two_nodes
  = Some [[[0%R]; [m]]; [[m]; [0%R]]].
Proof. reflexivity. Qed.

(** The logistic function is injective. *)
Lemma sigmoid_injective (a b : R) :
  (exp a / (exp a + 1) = exp b / (exp b + 1))%R → a = b.
Proof.
  intros Heq. apply exp_inv.
  pose proof (exp_pos a) as Ha. pose proof (exp_pos b) as Hb.
  apply (f_equal (λ t, t * ((exp a + 1) * (exp b + 1)))%R) in Heq.
  field_simplify in Heq; lra.
Qed.

(** C1, counterexample. In the two-node graph both nodes have the same
    features and, with the zero tensor, the same previous messages, yet the
    update gates of the edges 0 -> 1 and 1 -> 0 differ: the weight matrix is
    the slice of the edge. *)
Lemma gates_of_two_edges_differ :
  ∃ gate01 gate10,
    _pass_through_update_gate Sample.per_edge_encoder (np.zeros3 (2, 2, 1))
      (Sample.node Sample.two_nodes 0)
      (mkEdge (Sample.node Sample.two_nodes 0) (Sample.node Sample.two_nodes 1))
      Sample.two_nodes = Some gate01
    ∧ _pass_through_update_gate Sample.per_edge_encoder (np.zeros3 (2, 2, 1))
        (Sample.node Sample.two_nodes 1)
        (mkEdge (Sample.node Sample.two_nodes 1)
           (Sample.node Sample.two_nodes 0))
        Sample.two_nodes = Some gate10
    ∧ features (Sample.node Sample.two_nodes 0)
      = features (Sample.node Sample.two_nodes 1)
    ∧ sum_of_incoming_messages (np.zeros3 (2, 2, 1))
        (Sample.node Sample.two_nodes 0) 1
      = sum_of_incoming_messages (np.zeros3 (2, 2, 1))
          (Sample.node Sample.two_nodes 1) 0
    ∧ gate01 ≠ gate10.
Proof.
  exists [(exp (0 + 1 * 1 + (0 + 1 * 0) + 0)
           / (exp (0 + 1 * 1 + (0 + 1 * 0) + 0) + 1))%R],
         [(exp (0 + 2 * 1 + (0 + 1 * 0) + 0)
           / (exp (0 + 2 * 1 + (0 + 1 * 0) + 0) + 1))%R].
  split_and!; [reflexivity..|].
  intros [= Heq%sigmoid_injective]. lra.
Qed.

Lemma message_reads_bias_vectors_and_edge_slices_witness :
  _get_message_inputs (Sample.constant_encoder 1 2 1 0) (np.zeros3 (2, 2, 1))
    (Sample.node Sample.two_nodes 0)
    (mkEdge (Sample.node Sample.two_nodes 0) (Sample.node Sample.two_nodes 1))
    Sample.two_nodes
  = _get_message_inputs Sample.other_forget_gate (np.zeros3 (2, 2, 1))
      (Sample.node Sample.two_nodes 0)
      (mkEdge (Sample.node Sample.two_nodes 0)
         (Sample.node Sample.two_nodes 1))
      Sample.two_nodes.
Proof.
  apply message_reads_bias_vectors_and_edge_slices.
  - split_and!; [reflexivity..|]. intros k Hk. split_and!; reflexivity.
  - apply list_elem_of_here.
Defined.

(** Whatever index array runs parallel to the neighbor ids: the rows that the
    code of lines 78-79 selects for the edge 1 -> 0 of the path, whose first
    index is the neighbor 2, are zero in [Sample.one_message]. *)
Lemma one_message_rows_of_neighbor_2 (idxs : list nat)
    (rows : list (list R)) :
  np.gather Sample.one_message ([2], idxs) = Some rows → rows = [[0%R]].
Proof.
  unfold np.gather. simpl. case_decide as Hlen; [|done].
  destruct idxs as [|j [|? ?]]; try done. clear Hlen. simpl.
  intros (cell & Hcell & [= <-])%bind_Some. f_equal.
  apply item_Some in Hcell as (row & [= <-] & Hcell). simpl in Hcell.
  do 4 (destruct j as [|j]; [by injection Hcell as <-|]). done.
Qed.

(** C2, counterexample. Node 1 of the path has the neighbors 0 and 2; the
    only message that is not zero goes from node 1 to node 2. For the edge
    1 -> 0 the code sums [messages[2, 1, :]], which is 0, and the claim
    [messages[1, 2, :]], which is 1: the two update gates differ. *)
Lemma update_gate_of_outgoing_messages_counterexample :
  ∃ gate claimed,
    _pass_through_update_gate (Sample.constant_encoder 1 4 1 0)
      Sample.one_message (Sample.node Sample.path_and_isolated 1)
      (mkEdge (Sample.node Sample.path_and_isolated 1)
         (Sample.node Sample.path_and_isolated 0))
      Sample.path_and_isolated = Some gate
    ∧ (previous ← sum_of_outgoing_messages Sample.one_message
                   (Sample.node Sample.path_and_isolated 1) 0;
       update_gate_formula (Sample.constant_encoder 1 4 1 0)
         Sample.path_and_isolated (Sample.node Sample.path_and_isolated 1) 0
         previous) = Some claimed
    ∧ gate ≠ claimed.
Proof.
  exists [(exp (0 + 1 * 2 + (0 + 1 * 0) + 0)
           / (exp (0 + 1 * 2 + (0 + 1 * 0) + 0) + 1))%R],
         [(exp (0 + 1 * 2 + (0 + 1 * 1) + 0)
           / (exp (0 + 1 * 2 + (0 + 1 * 1) + 0) + 1))%R].
  split_and!; [reflexivity..|].
  intros [= Heq%sigmoid_injective]. lra.
Qed.

Lemma update_gate_of_incoming_messages_witness :
  ∃ w u x previous wx um,
    np.item (w_gru_update_gate_features (Sample.constant_encoder 1 4 1 0))
      (1, 0) = Some w
    ∧ np.item (u_gru_update_gate (Sample.constant_encoder 1 4 1 0)) (1, 0)
      = Some u
    ∧ node_features Sample.path_and_isolated !! 1 = Some x
    ∧ sum_of_incoming_messages Sample.one_message
        (Sample.node Sample.path_and_isolated 1) 0 = Some previous
    ∧ (neighbors_count (Sample.node Sample.path_and_isolated 1) ≤ 1 →
       previous = np.zeros 1)
    ∧ (graph_wf Sample.path_and_isolated →
       Node_init Sample.path_and_isolated 1
       = Some (Sample.node Sample.path_and_isolated 1) →
       length (features (Sample.node Sample.path_and_isolated 1))
       = number_of_node_features Sample.path_and_isolated)
    ∧ np.dot w x = Some wx ∧ np.dot u previous = Some um
    ∧ length wx = length um ∧ length um = 1
    ∧ [(exp (0 + 1 * 2 + (0 + 1 * 0) + 0)
        / (exp (0 + 1 * 2 + (0 + 1 * 0) + 0) + 1))%R]
      = (λ z, np.div (np.exp z) (np.add (np.exp z) np.one))
          <$> zip_with np.add (zip_with np.add wx um) [0%R].
Proof.
  apply (update_gate_of_incoming_messages (Sample.constant_encoder 1 4 1 0)
           Sample.path_and_isolated Sample.one_message
           (Sample.node Sample.path_and_isolated 1)
           (Sample.node Sample.path_and_isolated 0)).
  reflexivity.
Defined.


Lemma composed_message_is_gru_interpolation_witness :
  ∃ new node end_node message previous gate memory,
    _compose_messages_from_nodes_to_targets (Sample.constant_encoder 1 4 1 0)
      Sample.path_and_isolated Sample.one_message = Some new
    ∧ Node_init Sample.path_and_isolated 1 = Some node
    ∧ Node_init Sample.path_and_isolated 0 = Some end_node
    ∧ _get_message_inputs (Sample.constant_encoder 1 4 1 0)
        Sample.one_message node (mkEdge node end_node)
        Sample.path_and_isolated = Some message
    ∧ previous_messages message = Some previous
    ∧ update_gate message = Some gate
    ∧ current_memory message = Some memory
    ∧ length gate = length previous ∧ length gate = length memory
    ∧ np.item new (1, 0)
      = Some (zip_with np.add
                (zip_with np.mul (np.sub np.one <$> gate) previous)
                (zip_with np.mul gate memory)).
Proof.
  destruct (round_total (Sample.constant_encoder 1 4 1 0)
              Sample.path_and_isolated ltac:(decide_wf) ltac:(decide_wf)
              Sample.one_message ltac:(decide_wf)) as (new & Hnew & _).
  exists new.
  destruct (composed_message_is_gru_interpolation
              (Sample.constant_encoder 1 4 1 0) Sample.path_and_isolated
              Sample.one_message new 1 0 Hnew)
    as (node & end_node & message & previous & gate & memory & Hrest).
  - simpl. lia.
  - exists [0; 2]. split; [reflexivity|apply list_elem_of_here].
  - exists node, end_node, message, previous, gate, memory. by split.
Defined.

Lemma non_edges_stay_zero_witness :
  ∃ messages,
    _send_messages (Sample.constant_encoder 2 4 1 0) Sample.path_and_isolated
      = Some messages
    ∧ np.item messages (0, 2) = Some [0%R].
Proof.
  destruct (send_messages_total (Sample.constant_encoder 2 4 1 0)
              Sample.path_and_isolated ltac:(decide_wf) ltac:(decide_wf))
    as (messages & Hsend & _).
  exists messages. split; [done|].
  apply (proj2 (non_edges_stay_zero (Sample.constant_encoder 2 4 1 0)
                  Sample.path_and_isolated) messages 0 2 Hsend).
  - simpl. lia.
  - simpl. lia.
  - intros (ns & [= <-] & Hin). by apply list_elem_of_singleton in Hin.
Defined.

Lemma encoding_sums_outgoing_messages_witness :
  ∃ encodings messages u x ux u' sent summed us,
    encode (Sample.constant_encoder 1 2 1 0) Sample.two_nodes = Some encodings
    ∧ _send_messages (Sample.constant_encoder 1 2 1 0) Sample.two_nodes
      = Some messages
    ∧ u_graph_node_features (Sample.constant_encoder 1 2 1 0) !! 0 = Some u
    ∧ node_features Sample.two_nodes !! 0 = Some x
    ∧ np.dot u x = Some ux
    ∧ u_graph_neighbor_messages (Sample.constant_encoder 1 2 1 0) !! 0
      = Some u'
    ∧ messages !! 0 = Some sent
    ∧ (∀ j, sent !! j = np.item messages (0, j))
    ∧ np.sum_axis0 (np.shape2 sent).2 sent = Some summed
    ∧ np.dot u' summed = Some us
    ∧ length ux = length us
    ∧ encodings !! 0 = Some (np.maximum np.zero <$> zip_with np.add ux us).
Proof.
  destruct (encode_total (Sample.constant_encoder 1 2 1 0) Sample.two_nodes
              ltac:(decide_wf) ltac:(decide_wf)) as (encodings & Henc & _).
  exists encodings.
  destruct (encoding_sums_outgoing_messages (H:=Numeric_R)
              (Sample.constant_encoder 1 2 1 0)
              Sample.two_nodes encodings 0 Rplus_0_l Henc)
    as (messages & u & x & ux & u' & sent & summed & us & Hrest).
  - simpl. lia.
  - exists messages, u, x, ux, u', sent, summed, us. by split.
Defined.

Lemma isolated_node_encoding_witness :
  ∃ encodings messages sent u x ux,
    encode (Sample.constant_encoder 2 4 1 0) Sample.path_and_isolated
      = Some encodings
    ∧ _send_messages (Sample.constant_encoder 2 4 1 0)
        Sample.path_and_isolated = Some messages
    ∧ messages !! 3 = Some sent
    ∧ Forall (λ cell, cell = np.zeros 1) sent
    ∧ u_graph_node_features (Sample.constant_encoder 2 4 1 0) !! 3 = Some u
    ∧ node_features Sample.path_and_isolated !! 3 = Some x
    ∧ np.dot u x = Some ux
    ∧ encodings !! 3 = Some (np.maximum np.zero <$> ux).
Proof.
  destruct (encode_total (Sample.constant_encoder 2 4 1 0)
              Sample.path_and_isolated ltac:(decide_wf) ltac:(decide_wf))
    as (encodings & Henc & _).
  exists encodings.
  destruct (isolated_node_encoding (H:=Numeric_R)
              (Sample.constant_encoder 2 4 1 0)
              Sample.path_and_isolated encodings 3
              Rmult_0_r Rplus_0_r Rplus_0_l Henc)
    as (messages & sent & u & x & ux & Hrest).
  - simpl. lia.
  - reflexivity.
  - exists messages, sent, u, x, ux. by split.
Defined.

Lemma single_neighbor_message_is_constant_witness :
  ∃ message w wm um x wx wmx,
    _get_message_inputs (Sample.constant_encoder 1 2 1 0)
      (np.zeros3 (2, 2, 1)) (Sample.node Sample.two_nodes 0)
      (mkEdge (Sample.node Sample.two_nodes 0) (Sample.node Sample.two_nodes 1))
      Sample.two_nodes = Some message
    ∧ np.item (w_gru_update_gate_features (Sample.constant_encoder 1 2 1 0))
        (0, 1) = Some w
    ∧ np.item (w_gru_current_memory_message_features
                 (Sample.constant_encoder 1 2 1 0)) (0, 1) = Some wm
    ∧ np.item (u_gru_current_memory_message
                 (Sample.constant_encoder 1 2 1 0)) (0, 1) = Some um
    ∧ node_features Sample.two_nodes !! 0 = Some x
    ∧ np.dot w x = Some wx ∧ np.dot wm x = Some wmx
    ∧ previous_messages message = Some (np.zeros 1)
    ∧ reset_weighted_sum (Sample.constant_encoder 1 2 1 0) Sample.two_nodes
        (np.zeros3 (2, 2, 1)) (Sample.node Sample.two_nodes 0) 1
      = Some (np.zeros 1)
    ∧ np.dot um (np.zeros 1) = Some (np.zeros (length um))
    ∧ np.dot um (np.zeros (length um)) = Some (np.zeros (length um))
    ∧ update_gate message
      = Some ((λ z, np.div (np.exp z) (np.add (np.exp z) np.one))
                <$> zip_with np.add wx [0%R])
    ∧ current_memory message
      = Some (np.tanh <$> zip_with np.add wmx [0%R])
    ∧ ∀ others,
        _get_message_inputs (Sample.constant_encoder 1 2 1 0) others
          (Sample.node Sample.two_nodes 0)
          (mkEdge (Sample.node Sample.two_nodes 0)
             (Sample.node Sample.two_nodes 1))
          Sample.two_nodes = Some message.
Proof.
  destruct (_get_message_inputs (Sample.constant_encoder 1 2 1 0)
              (np.zeros3 (2, 2, 1)) (Sample.node Sample.two_nodes 0)
              (mkEdge (Sample.node Sample.two_nodes 0)
                 (Sample.node Sample.two_nodes 1))
              Sample.two_nodes) as [message|] eqn:Hmessage; [|discriminate].
  exists message.
  destruct (single_neighbor_message_is_constant (H:=Numeric_R)
              (Sample.constant_encoder 1 2 1 0) Sample.two_nodes
              (np.zeros3 (2, 2, 1)) (Sample.node Sample.two_nodes 0)
              (Sample.node Sample.two_nodes 1) message
              Rmult_0_r Rplus_0_r eq_refl Hmessage)
    as (w & wm & um & x & wx & wmx & Hrest).
  exists w, wm, um, x, wx, wmx. by split.
Defined.

(** ** The shape of the messages tensor, whatever the inputs *)

Section TensorShape.
Context {T : Type} `{np.Numeric T}.
Context (self : GraphEncoder T).

Lemma setitem_keeps_shape (a b c : nat) (t t' : list (list (list T)))
    (s : nat * nat) (v : list T) :
  np.setitem t s v = Some t' → shaped3 a b c t → shaped3 a b c t'.
Proof.
  intros (m & cell & Hm & Hcell & Hlen & ->)%setitem_Some [Hlt Hrows].
  pose proof (Forall_lookup_1 _ _ _ _ Hrows Hm) as [Hlm Hcells].
  pose proof (Forall_lookup_1 _ _ _ _ Hcells Hcell) as Hlc. simpl in Hlc.
  split; [by rewrite length_insert|]. apply Forall_insert; [done|].
  split; [by rewrite length_insert|]. apply Forall_insert; [done|]. lia.
Qed.

Lemma round_keeps_shape (a b c : nat) (graph : Graph T)
    (messages new : list (list (list T))) :
  _compose_messages_from_nodes_to_targets self graph messages = Some new →
  shaped3 a b c messages → shaped3 a b c new.
Proof.
  unfold _compose_messages_from_nodes_to_targets. intros Hloop Hshape.
  eapply (for_each_inv (shaped3 a b c)); [| |exact Hloop].
  - by apply zeros_like_shaped.
  - intros t i t' Ht (node & _ & Hinner)%bind_Some.
    eapply (for_each_inv (shaped3 a b c)); [exact Ht| |exact Hinner].
    intros t1 j t2 Ht1 Hbody. cbv beta in Hbody.
    rewrite inner_body in Hbody.
    apply bind_Some in Hbody as (v & _ & Hset). by eapply setitem_keeps_shape.
Qed.

(** X1. Whatever the graph and the weights, a messages tensor that
    [_send_messages] returns has the shape (N, N, F) it was created with:
    every round builds its tensor with [zeros_like] and only assigns whole
    slices [new_messages[i, j]]. *)
Theorem send_messages_keeps_shape (graph : Graph T)
    (messages : list (list (list T))) :
  _send_messages self graph = Some messages →
  shaped3 (number_of_nodes graph) (number_of_nodes graph)
    (number_of_node_features graph) messages.
Proof.
  unfold _send_messages. intros Hloop.
  eapply (for_each_inv
            (shaped3 (number_of_nodes graph) (number_of_nodes graph)
               (number_of_node_features graph))); [| |exact Hloop].
  - apply zeros3_shaped.
  - intros t step t' Ht Hround. cbv beta in Hround.
    by eapply round_keeps_shape.
Qed.

Lemma square_item_bound (n : nat) (t : list (list (list T))) (i j : nat)
    (cell : list T) :
  square n t → np.item t (i, j) = Some cell → i < n ∧ j < n.
Proof.
  intros [Hlen Hrows] (m & Hm & Hcell)%item_Some. simpl in *.
  pose proof (Forall_lookup_1 _ _ _ _ Hrows Hm) as Hlm. simpl in Hlm.
  apply lookup_lt_Some in Hm, Hcell. lia.
Qed.

(** X2. A neighbor id outside the graph is an error, not an entry that is
    skipped: when some node [i] of the graph lists a neighbor [j] with
    [N <= j] and at least one round runs, [encode] fails (the first round
    indexes the N x N tensor at [(i, j)]). *)
Theorem neighbor_out_of_range_fails (graph : Graph T) (i j : nat) :
  0 < time_steps self → i < number_of_nodes graph →
  is_neighbor graph i j → number_of_nodes graph ≤ j →
  encode self graph = None.
Proof.
  intros Hsteps Hi Hij Hj.
  destruct (encode self graph) as [encodings|] eqn:Henc; [exfalso|done].
  unfold encode in Henc. apply bind_Some in Henc as (messages & Hsend & _).
  unfold _send_messages in Hsend.
  destruct (time_steps self) as [|steps]; [lia|]. simpl in Hsend.
  apply bind_Some in Hsend as (first & Hround & _).
  destruct (round_spec self graph _ _ Hround) as [_ Hwritten].
  destruct (Hwritten i j Hi Hij) as (node & v & _ & _ & Hitem).
  assert (square (number_of_nodes graph) first) as Hsquare.
  { eapply round_square; [exact Hround|].
    unfold np.zeros3, np.zeros2. simpl. split; [apply length_replicate|].
    apply Forall_replicate. apply length_replicate. }
  destruct (square_item_bound _ _ _ _ _ Hsquare Hitem). lia.
Qed.

End TensorShape.

(** ** What flows between nodes *)

Section InformationFlow.
Context {T : Type} `{np.Numeric T}.
Context (self : GraphEncoder T).

Lemma update_gate_formula_own_features (graph graph' : Graph T)
    (node : Node T) (k : nat) (m : list T) :
  node_features graph !! node_id node = node_features graph' !! node_id node →
  update_gate_formula self graph node k m
  = update_gate_formula self graph' node k m.
Proof. intros Hx. unfold update_gate_formula. by rewrite Hx. Qed.

Lemma reset_weighted_sum_own_features (graph graph' : Graph T)
    (messages : list (list (list T))) (node : Node T) (end_node_id : nat) :
  node_features graph !! node_id node = node_features graph' !! node_id node →
  reset_weighted_sum self graph messages node end_node_id
  = reset_weighted_sum self graph' messages node end_node_id.
Proof.
  intros Hx. unfold reset_weighted_sum. apply for_each_ext.
  intros summed k. unfold reset_gate_formula.
  destruct (np.item messages _) as [m|]; simpl; [|done].
  by rewrite (update_gate_formula_own_features graph graph').
Qed.

Lemma current_memory_spec (graph : Graph T)
    (messages : list (list (list T))) (node end_node : Node T)
    (memory : list T) :
  _get_current_memory_message self messages node (mkEdge node end_node) graph
    = Some memory →
  ∃ summed,
    reset_weighted_sum self graph messages node (node_id end_node)
      = Some summed
    ∧ current_memory_formula self graph node (node_id end_node) summed
      = Some memory.
Proof.
  unfold _get_current_memory_message, get_edge_slice. simpl.
  intros (kept & Hkept & (w & Hw & (x & Hx & (wx & Hwx & (u & Hu
    & (um & Hum & (s & Hs & (s' & Hs' & [= <-])%bind_Some)%bind_Some)%bind_Some
    )%bind_Some)%bind_Some)%bind_Some)%bind_Some)%bind_Some.
  apply keep_or_reset_spec in Hkept as (u' & summed & Hu' & Hsummed & Hdot).
  rewrite Hu in Hu'. injection Hu' as <-.
  exists summed. split; [done|].
  unfold current_memory_formula, affine.
  step Hu. step Hdot. step Hw. step Hx. step Hwx. step Hum. step Hs.
  by step Hs'.
Qed.

Lemma message_inputs_own_features (graph graph' : Graph T)
    (messages : list (list (list T))) (node end_node end_node' : Node T)
    (message message' : Message T) :
  node_features graph !! node_id node = node_features graph' !! node_id node →
  node_id end_node = node_id end_node' →
  _get_message_inputs self messages node (mkEdge node end_node) graph
    = Some message →
  _get_message_inputs self messages node (mkEdge node end_node') graph'
    = Some message' →
  message = message'.
Proof.
  intros Hx Hid. unfold _get_message_inputs.
  rewrite !previous_messages_spec, !update_gate_spec, <- Hid.
  destruct (sum_of_incoming_messages _ _ _) as [p|]; simpl; [|done].
  rewrite <- (update_gate_formula_own_features graph graph') by done.
  destruct (update_gate_formula _ _ _ _ _) as [gate|]; simpl; [|done].
  intros (memory & Hmemory & [= <-])%bind_Some.
  intros (memory' & Hmemory' & [= <-])%bind_Some.
  apply current_memory_spec in Hmemory as (summed & Hsummed & Hformula).
  apply current_memory_spec in Hmemory' as (summed' & Hsummed' & Hformula').
  rewrite <- Hid, <- (reset_weighted_sum_own_features graph graph') in Hsummed'
    by done.
  rewrite Hsummed in Hsummed'. injection Hsummed' as <-.
  unfold current_memory_formula in Hformula, Hformula'.
  rewrite <- Hid, <- Hx, Hformula in Hformula'. by injection Hformula' as <-.
Qed.

Lemma composed_message_own_features (graph graph' : Graph T)
    (messages : list (list (list T))) (node : Node T) (j : nat)
    (v v' : list T) :
  node_features graph !! node_id node = node_features graph' !! node_id node →
  composed_message self graph messages node j = Some v →
  composed_message self graph' messages node j = Some v' →
  v = v'.
Proof.
  intros Hx. unfold composed_message, _create_node, _create_edge.
  intros (end_node & Hend & (message & Hmessage & Hv)%bind_Some)%bind_Some.
  intros (end_node' & Hend' & (message' & Hmessage' & Hv')%bind_Some
    )%bind_Some.
  apply Node_init_id in Hend, Hend'.
  rewrite (message_inputs_own_features graph graph' messages node end_node
             end_node' message message') in Hv; [|done|congruence|done..].
  rewrite Hv in Hv'. by injection Hv'.
Qed.

Lemma row_of_items (n : nat) (t t' : list (list (list T))) (i : nat) :
  square n t → square n t' → i < n →
  (∀ j, np.item t (i, j) = np.item t' (i, j)) → t !! i = t' !! i.
Proof.
  intros [Hlt Hrows] [Hlt' Hrows'] Hi Hitems.
  destruct (lookup_lt_is_Some_2 t i) as [m Hm]; [lia|].
  destruct (lookup_lt_is_Some_2 t' i) as [m' Hm']; [lia|].
  rewrite Hm, Hm'. f_equal. apply list_eq. intros j.
  specialize (Hitems j). unfold np.item in Hitems. simpl in Hitems.
  by rewrite Hm, Hm' in Hitems.
Qed.

(** X3. With one time step, no information flows between nodes: for two
    graphs with the same number of nodes and of features and the same
    adjacency whose feature matrices agree on row [i], the encodings of node
    [i] are the same, whatever the features of the other nodes are. (The
    single round reads only the zero tensor.) *)
Theorem one_round_reads_own_features (graph graph' : Graph T)
    (encodings encodings' : list (list T)) (i : nat) :
  time_steps self = 1 →
  number_of_nodes graph = number_of_nodes graph' →
  number_of_node_features graph = number_of_node_features graph' →
  all_neighbors graph = all_neighbors graph' →
  node_features graph !! i = node_features graph' !! i →
  i < number_of_nodes graph →
  encode self graph = Some encodings →
  encode self graph' = Some encodings' →
  encodings !! i = encodings' !! i.
Proof.
  intros Hsteps HN HF Hadj Hx Hi Henc Henc'.
  destruct (encoding_row self graph encodings i Henc Hi)
    as (m & row & Hsend & Hrow & ->).
  destruct (encoding_row self graph' encodings' i Henc')
    as (m' & row' & Hsend' & Hrow' & ->); [lia|].
  enough (m !! i = m' !! i) as Hrows.
  { unfold _apply_recurrent_layer_for_node in Hrow, Hrow'.
    rewrite <- Hx, <- Hrows, Hrow in Hrow'. by injection Hrow' as <-. }
  unfold _send_messages in Hsend, Hsend'.
  rewrite Hsteps, <- ?HN, <- ?HF in *. simpl in Hsend, Hsend'.
  apply bind_Some in Hsend as (m1 & Hround & [= <-]).
  apply bind_Some in Hsend' as (m1' & Hround' & [= <-]).
  set (zero := np.zeros3 _) in *.
  assert (square (number_of_nodes graph) zero) as Hzero.
  { unfold zero, np.zeros3, np.zeros2. simpl. split; [apply length_replicate|].
    apply Forall_replicate. apply length_replicate. }
  apply (row_of_items (number_of_nodes graph)); [| |done|].
  { by eapply round_square. }
  { by eapply round_square. }
  intros j.
  destruct (round_spec self graph zero m1 Hround) as [Hframe Hwritten].
  destruct (round_spec self graph' zero m1' Hround') as [Hframe' Hwritten'].
  destruct (all_neighbors graph !! i) as [ns|] eqn:Hns.
  - destruct (decide (j ∈ ns)) as [Hj|Hj].
    + destruct (Hwritten i j Hi) as (node & v & Hnode & Hv & ->).
      { by exists ns. }
      destruct (Hwritten' i j) as (node' & v' & Hnode' & Hv' & ->); [lia| |].
      { exists ns. by rewrite <- Hadj. }
      apply Node_init_Some in Hnode as (r & ns1 & Hr & Hns1 & ->).
      apply Node_init_Some in Hnode' as (r' & ns1' & Hr' & Hns1' & ->).
      rewrite <- Hx, Hr in Hr'. injection Hr' as <-.
      rewrite <- Hadj, Hns1 in Hns1'. injection Hns1' as <-.
      f_equal. eapply composed_message_own_features; [|exact Hv|exact Hv'].
      done.
    + rewrite Hframe, Hframe'; [done| |].
      * intros [_ (ns' & Hns' & Hj')]. rewrite <- Hadj, Hns in Hns'.
        by injection Hns' as <-.
      * intros [_ (ns' & Hns' & Hj')]. rewrite Hns in Hns'.
        by injection Hns' as <-.
  - rewrite Hframe, Hframe'; [done| |].
    + intros [_ (ns' & Hns' & _)]. by rewrite <- Hadj, Hns in Hns'.
    + intros [_ (ns' & Hns' & _)]. by rewrite Hns in Hns'.
Qed.

End InformationFlow.

(** ** Graphs whose nodes have at most one neighbor *)

Section Stationary.
Context {T : Type} `{np.Numeric T}.
Context (self : GraphEncoder T).

Lemma zeros_of_same_length (v cell : list T) :
  length v = length cell →
  (λ _ : T, np.zero) <$> v = (λ _ : T, np.zero) <$> cell.
Proof.
  revert cell. induction v as [|x v IH]; intros [|y cell]; simpl; try done.
  intros [= Hlen]. f_equal. by apply IH.
Qed.

Lemma setitem_zeros_like (t t' : list (list (list T))) (s : nat * nat)
    (v : list T) :
  np.setitem t s v = Some t' → np.zeros_like t' = np.zeros_like t.
Proof.
  intros (m & cell & Hm & Hcell & Hlen & ->)%setitem_Some.
  unfold np.zeros_like. rewrite list_fmap_insert. apply list_insert_id.
  rewrite list_lookup_fmap, Hm. simpl. f_equal. symmetry.
  rewrite list_fmap_insert. apply list_insert_id.
  rewrite list_lookup_fmap, Hcell. simpl. f_equal.
  symmetry. by apply zeros_of_same_length.
Qed.

Lemma zeros_like_idempotent (t : list (list (list T))) :
  np.zeros_like (np.zeros_like t) = np.zeros_like t.
Proof.
  unfold np.zeros_like. rewrite <- list_fmap_compose. apply list_fmap_ext.
  intros _ m _. simpl. rewrite <- list_fmap_compose. apply list_fmap_ext.
  intros _ v _. simpl. apply zeros_of_same_length. by rewrite length_fmap.
Qed.

Lemma round_zeros_like (graph : Graph T)
    (messages new : list (list (list T))) :
  _compose_messages_from_nodes_to_targets self graph messages = Some new →
  np.zeros_like new = np.zeros_like messages.
Proof.
  unfold _compose_messages_from_nodes_to_targets. intros Hloop.
  eapply (for_each_inv (λ t, np.zeros_like t = np.zeros_like messages));
    [| |exact Hloop].
  - apply zeros_like_idempotent.
  - intros t i t' Ht (node & _ & Hinner)%bind_Some.
    eapply (for_each_inv (λ t, np.zeros_like t = np.zeros_like messages));
      [exact Ht| |exact Hinner].
    intros t1 j t2 Ht1 Hbody. cbv beta in Hbody.
    rewrite inner_body in Hbody.
    apply bind_Some in Hbody as (v & _ & Hset).
    by rewrite (setitem_zeros_like _ _ _ _ Hset).
Qed.

(** When no node has more than one neighbor, a round does not read the
    entries of the old tensor, only its shape. *)
Lemma round_reads_shape_only (graph : Graph T)
    (messages others : list (list (list T))) :
  (∀ i ns, all_neighbors graph !! i = Some ns → length ns ≤ 1) →
  np.zeros_like messages = np.zeros_like others →
  _compose_messages_from_nodes_to_targets self graph messages
  = _compose_messages_from_nodes_to_targets self graph others.
Proof.
  intros Hdegree Hshape. unfold _compose_messages_from_nodes_to_targets.
  rewrite Hshape. apply for_each_ext. intros new i.
  change (_create_node graph i) with (Node_init graph i).
  destruct (Node_init graph i) as [node|] eqn:Hnode; simpl; [|done].
  pose proof (Node_init_neighbors _ _ _ Hnode) as Hns.
  pose proof (Hdegree _ _ Hns) as Hlen.
  destruct (neighbors node) as [|j [|? ?]] eqn:Hneighbors; simpl in *;
    [done| |lia].
  unfold _create_node.
  destruct (Node_init graph j) as [end_node|] eqn:Hend; simpl; [|done].
  unfold _create_edge.
  rewrite (single_neighbor_inputs self graph messages others node end_node);
    [done|]. by rewrite (Node_init_id _ _ _ Hend).
Qed.

(** X4. On a graph in which no node has more than one neighbor, the rounds
    after the first change nothing: for any number of time steps of at least
    one, [_send_messages] returns what a single round returns on the zero
    tensor (and fails when that round fails). *)
Theorem further_rounds_change_nothing (graph : Graph T) :
  (∀ i ns, all_neighbors graph !! i = Some ns → length ns ≤ 1) →
  1 ≤ time_steps self →
  _send_messages self graph
  = _compose_messages_from_nodes_to_targets self graph
      (np.zeros3 (number_of_nodes graph, number_of_nodes graph,
                  number_of_node_features graph)).
Proof.
  intros Hdegree Hsteps. unfold _send_messages.
  set (zero := np.zeros3 _).
  destruct (time_steps self) as [|steps]; [lia|]. simpl. clear Hsteps.
  destruct (_compose_messages_from_nodes_to_targets self graph zero)
    as [first|] eqn:Hfirst; simpl; [|done].
  assert (_compose_messages_from_nodes_to_targets self graph first
          = Some first) as Hfixed.
  { rewrite <- Hfirst. apply round_reads_shape_only; [done|].
    by eapply round_zeros_like. }
  generalize 1. induction steps as [|steps IH]; intros start; simpl; [done|].
  rewrite Hfixed. simpl. apply IH.
Qed.

End Stationary.

(** ** Zero time steps *)

Section NoRound.
Context {T : Type} `{np.Numeric T}.
Context (self : GraphEncoder T).

(** X5. With zero time steps and scalars on which [x * 0 = 0], [x + 0 = x]
    and [0 + x = x], the encoding of every node [i] of the graph is
    [ReLU(U_node_features[i] . node.features)]: the term of the messages is
    the zero vector. *)
Theorem no_round_encodes_own_features (graph : Graph T)
    (encodings : list (list T)) (i : nat) :
  (∀ x : T, np.mul x np.zero = np.zero) →
  (∀ x : T, np.add x np.zero = x) →
  (∀ x : T, np.add np.zero x = x) →
  time_steps self = 0 →
  encode self graph = Some encodings → i < number_of_nodes graph →
  ∃ u x ux,
    u_graph_node_features self !! i = Some u
    ∧ node_features graph !! i = Some x
    ∧ np.dot u x = Some ux
    ∧ encodings !! i = Some (np.maximum np.zero <$> ux).
Proof.
  intros mul_zero_r add_zero_r add_zero_l Hsteps Henc Hi.
  destruct (encoding_row self graph encodings i Henc Hi)
    as (messages & row & Hsend & Hrow & Hnew).
  rewrite (zip_with_add_zeros_l add_zero_l) in Hnew by done.
  apply apply_recurrent_layer_Some in Hrow
    as (u & x & ux & u' & sent & summed & us & Hu & Hx & Hux & Hu' & Hsent
        & Hsummed & Hus & Hlen & ->).
  unfold _send_messages in Hsend. rewrite Hsteps in Hsend.
  injection Hsend as <-.
  unfold np.zeros3, np.zeros2 in Hsent. simpl in Hsent.
  apply lookup_replicate in Hsent as [-> _].
  assert (summed = np.zeros (number_of_node_features graph)) as ->.
  { destruct (number_of_nodes graph) as [|n]; [lia|].
    unfold np.shape2 in Hsummed. simpl in Hsummed.
    rewrite length_zeros in Hsummed.
    assert (Forall (λ row, row = np.zeros (number_of_node_features graph))
              (np.zeros (number_of_node_features graph)
               :: replicate n (np.zeros (number_of_node_features graph))))
      as Hall by (constructor; [done|by apply Forall_replicate]).
    rewrite (sum_axis0_zeros add_zero_r _ _ Hall) in Hsummed.
    by injection Hsummed as <-. }
  pose proof (dot_zeros mul_zero_r add_zero_r _ _ _ Hus) as ->.
  rewrite (zip_with_add_zeros_r add_zero_r) in Hnew
    by (by rewrite length_zeros in Hlen).
  by exists u, x, ux.
Qed.

End NoRound.

(** ** Further instances on sample inputs *)

Lemma send_messages_keeps_shape_witness :
  ∃ messages,
    _send_messages (Sample.constant_encoder 2 4 1 0) Sample.path_and_isolated
      = Some messages
    ∧ shaped3 4 4 1 messages.
Proof.
  destruct (send_messages_total (Sample.constant_encoder 2 4 1 0)
              Sample.path_and_isolated ltac:(decide_wf) ltac:(decide_wf))
    as (messages & Hsend & _).
  exists messages. split; [done|].
  exact (send_messages_keeps_shape (Sample.constant_encoder 2 4 1 0)
           Sample.path_and_isolated messages Hsend).
Defined.

(** Node 0 lists the neighbor 5 in a graph of two nodes. *)
Lemma neighbor_out_of_range_fails_witness :
  encode (Sample.constant_encoder 1 2 1 0)
    (mkGraph 2 1 [[1%R]; [1%R]] [[5]; [0]]) = None.
Proof.
  apply (neighbor_out_of_range_fails (Sample.constant_encoder 1 2 1 0)
           (mkGraph 2 1 [[1%R]; [1%R]] [[5]; [0]]) 0 5).
  - simpl. lia.
  - simpl. lia.
  - exists [5]. split; [reflexivity|apply list_elem_of_here].
  - simpl. lia.
Defined.

(** The two-node graph and the same graph with the feature 7 at node 1. *)
Lemma one_round_reads_own_features_witness :
  ∃ encodings encodings',
    encode (Sample.constant_encoder 1 2 1 0) Sample.two_nodes = Some encodings
    ∧ encode (Sample.constant_encoder 1 2 1 0)
        (mkGraph 2 1 [[1%R]; [7%R]] [[1]; [0]]) = Some encodings'
    ∧ encodings !! 0 = encodings' !! 0.
Proof.
  destruct (encode_total (Sample.constant_encoder 1 2 1 0) Sample.two_nodes
              ltac:(decide_wf) ltac:(decide_wf)) as (e & He & _).
  destruct (encode_total (Sample.constant_encoder 1 2 1 0)
              (mkGraph 2 1 [[1%R]; [7%R]] [[1]; [0]])
              ltac:(decide_wf) ltac:(decide_wf)) as (e' & He' & _).
  exists e, e'. split_and!; [done..|].
  apply (one_round_reads_own_features (Sample.constant_encoder 1 2 1 0)
           Sample.two_nodes (mkGraph 2 1 [[1%R]; [7%R]] [[1]; [0]]) e e' 0);
    try done.
  simpl. lia.
Defined.

Lemma further_rounds_change_nothing_witness :
  _send_messages (Sample.constant_encoder 3 2 1 0) Sample.two_nodes
  = _compose_messages_from_nodes_to_targets (Sample.constant_encoder 3 2 1 0)
      Sample.two_nodes (np.zeros3 (2, 2, 1)).
Proof.
  apply (further_rounds_change_nothing (Sample.constant_encoder 3 2 1 0)
           Sample.two_nodes).
  - intros [|[|i]] ns; simpl; intros [= <-]; simpl; lia.
  - simpl. lia.
Defined.

Lemma no_round_encodes_own_features_witness :
  ∃ encodings u x ux,
    encode (Sample.constant_encoder 0 2 1 0) Sample.two_nodes = Some encodings
    ∧ u_graph_node_features (Sample.constant_encoder 0 2 1 0) !! 1 = Some u
    ∧ node_features Sample.two_nodes !! 1 = Some x
    ∧ np.dot u x = Some ux
    ∧ encodings !! 1 = Some (np.maximum np.zero <$> ux).
Proof.
  destruct (encode_total (Sample.constant_encoder 0 2 1 0) Sample.two_nodes
              ltac:(decide_wf) ltac:(decide_wf)) as (e & He & _).
  exists e.
  destruct (no_round_encodes_own_features (H:=Numeric_R)
              (Sample.constant_encoder 0 2 1 0) Sample.two_nodes e 1
              Rmult_0_r Rplus_0_r Rplus_0_l eq_refl He)
    as (u & x & ux & Hrest).
  - simpl. lia.
  - exists u, x, ux. by split.
Defined.
